(** * Scrunch: the row compactor of [processImage] (src/index.jsx)

    A shallow embedding of the pixel loop of [processImage]: every row of an
    RGBA pixel buffer is scanned, the quantized colours of its pixels are
    collected in a [Set], and the rows holding more than [maxDifferentPixels]
    distinct colours are copied to the output. *)

From stdpp Require Import base numbers list sorting gmap sets.

Local Open Scope Z_scope.

(** ** JavaScript values used by the loop *)

(** [const channels = 4; // RGBA] *)
Definition channels : nat := 4.

(** A read [data[i]] of the [Uint8ClampedArray]: [Some b] inside the array,
    [None] (JavaScript's [undefined]) past its end. *)
Definition readByte (data : list Z) (i : nat) : option Z := data !! i.

(** [ToInt32] of ECMAScript on an integer: wrap into [-2^31, 2^31). *)
Definition ToInt32 (z : Z) : Z := (z + 2 ^ 31) mod 2 ^ 32 - 2 ^ 31.

(** [a << n] on 32-bit integers. *)
Definition shl32 (a n : Z) : Z := ToInt32 (Z.shiftl (ToInt32 a) n).

(** [a | b] on 32-bit integers; [b] is the result of [Math.floor], where
    [None] stands for a double that is not finite ([NaN], [Infinity]):
    [ToInt32] sends those to [0]. *)
Definition or32 (a : Z) (b : option Z) : Z :=
  Z.lor (ToInt32 a) (ToInt32 (default 0 b)).

(** [Math.floor(data[i] / quantizationFactor)].  [undefined / q] is [NaN],
    and so is [0 / 0]; [v / 0] is [Infinity] for [v > 0]: all are [None].
    Otherwise the floor of the quotient, which is [Z.div] for a divisor of
    either sign. *)
Definition quantize (d : option Z) (quantizationFactor : Z) : option Z :=
  match d with
  | Some v => if decide (quantizationFactor = 0) then None
              else Some (v / quantizationFactor)
  | None => None
  end.

(** One turn of the channel loop: [pixelValue = (pixelValue << 4) | value]. *)
Definition packStep (pixelValue : Z) (value : option Z) : Z :=
  or32 (shl32 pixelValue 4) value.

(** The channel loop, lines 133-137:
    [for (let c = 0; c < channels - 1; c++)], starting from [pixelValue = 0]. *)
Definition pixelKey (data : list Z) (quantizationFactor : Z)
    (pixelStart : nat) : Z :=
  fold_left
    (fun pixelValue c =>
       packStep pixelValue
         (quantize (readByte data (pixelStart + c)) quantizationFactor))
    (seq 0 (channels - 1)) 0.

(** ** The scan of one row, lines 126-143 *)

(** The pixel loop [for (let x = 0; x < width; x++)] with its [break]:
    [n] turns remain, [x] is the loop variable. *)
Fixpoint scanRow (data : list Z) (quantizationFactor maxDifferentPixels : Z)
    (rowStart : nat) (n x : nat) (uniquePixels : gset Z) : gset Z :=
  match n with
  | O => uniquePixels
  | S n' =>
      let pixelStart := (rowStart + x * channels)%nat in
      let uniquePixels' :=
        {[ pixelKey data quantizationFactor pixelStart ]} ∪ uniquePixels in
      if decide (maxDifferentPixels < Z.of_nat (size uniquePixels'))
      then uniquePixels'
      else scanRow data quantizationFactor maxDifferentPixels rowStart
             n' (S x) uniquePixels'
  end.

(** The set [uniquePixels] as line 146 finds it for row [y]. *)
Definition uniquePixelsOfRow (data : list Z) (width : nat)
    (maxDifferentPixels quantizationFactor : Z) (y : nat) : gset Z :=
  scanRow data quantizationFactor maxDifferentPixels
    (y * width * channels) width 0 ∅.

(** The test of line 146: [uniquePixels.size > maxDifferentPixels]. *)
Definition rowIsContent (data : list Z) (width : nat)
    (maxDifferentPixels quantizationFactor : Z) (y : nat) : bool :=
  bool_decide
    (maxDifferentPixels <
       Z.of_nat (size (uniquePixelsOfRow data width maxDifferentPixels
                         quantizationFactor y))).

(** The values the copy loop of lines 147-150 pushes for row [y]:
    [data[i]] for [rowStart <= i < rowEnd]. *)
Definition rowBytes (data : list Z) (width : nat) (y : nat)
    : list (option Z) :=
  map (readByte data) (seq (y * width * channels) (width * channels)).

(** The body of the row loop, as a step on [nonBlankRows]. *)
Definition rowStep (data : list Z) (width : nat)
    (maxDifferentPixels quantizationFactor : Z)
    (nonBlankRows : list (option Z)) (y : nat) : list (option Z) :=
  if rowIsContent data width maxDifferentPixels quantizationFactor y
  then nonBlankRows ++ rowBytes data width y
  else nonBlankRows.

(** The row loop, lines 122-152: [for (let y = 0; y < height; y++)]. *)
Definition nonBlankRows (data : list Z) (width height : nat)
    (maxDifferentPixels quantizationFactor : Z) : list (option Z) :=
  fold_left (rowStep data width maxDifferentPixels quantizationFactor)
    (seq 0 height) [].

(** ** The new canvas, lines 154-164 *)

(** [nonBlankRows.length / (width * channels)], a division of doubles:
    [Some k] when the quotient is the natural number [k], [None] when it is
    not one ([0 / 0] is [NaN]; a fraction when the divisor does not divide). *)
Definition exactQuotient (a b : nat) : option nat :=
  if decide (b = 0%nat) then None
  else if decide ((a mod b)%nat = 0%nat) then Some (a / b)%nat
  else None.

(** An element of [new Uint8ClampedArray(nonBlankRows)]: [undefined] becomes
    [0], a number is clamped to a byte. *)
Definition toUint8Clamped (v : option Z) : Z :=
  match v with
  | Some b => Z.max 0 (Z.min 255 b)
  | None => 0
  end.

(** What lines 158-164 hand to the new canvas. *)
Record Compacted := mkCompacted {
  newWidth : nat;               (* newCanvas.width = width *)
  newHeight : option nat;       (* newCanvas.height = newHeight *)
  newRows : list (option Z);    (* nonBlankRows *)
  newData : list Z              (* new Uint8ClampedArray(nonBlankRows) *)
}.

Definition compactRows (data : list Z) (width height : nat)
    (maxDifferentPixels quantizationFactor : Z) : Compacted :=
  let rows := nonBlankRows data width height maxDifferentPixels
                quantizationFactor in
  {| newWidth := width;
     newHeight := exactQuotient (length rows) (width * channels);
     newRows := rows;
     newData := map toUint8Clamped rows |}.

(** Defaults of the signature, line 104. *)
Definition defaultMaxDifferentPixels : Z := 10.
Definition defaultQuantizationFactor : Z := 16.

(** ** The surrounding [try] block, lines 105-176 *)

(** What the statements of the [try] block can throw. *)
Inductive exception (E : Type) : Type :=
  | LoadError (err : E)   (* [img.onerror], lines 202-205 *)
  | IndexSizeError        (* a canvas call with a dimension of zero *)
  | TypeError             (* a canvas call with a dimension that is [NaN] *)
  | RangeError.           (* [TypedArray.set] with a source that is too long *)
Arguments LoadError {E} err.
Arguments IndexSizeError {E}.
Arguments TypeError {E}.
Arguments RangeError {E}.

(** How a statement of the [try] block completes: normally, or by throwing;
    the [catch] of lines 173-176 logs the error and throws it again, so the
    promise of [processImage] is rejected with it. *)
Inductive completion (E A : Type) : Type :=
  | Normal (a : A)
  | Throw (error : E).
Arguments Normal {E A} a.
Arguments Throw {E A} error.

Definition bind {E A B : Type} (c : completion E A)
    (k : A -> completion E B) : completion E B :=
  match c with
  | Normal a => k a
  | Throw e => Throw e
  end.

(** [imageData] with the canvas it was read from, lines 117-119. *)
Record ImageData := mkImageData {
  width : nat;
  height : nat;
  data : list Z
}.

(** The new canvas once the pixels are put on it, lines 155-167. *)
Record Canvas := mkCanvas {
  canvasWidth : nat;
  canvasHeight : nat;
  canvasPixels : list Z
}.

(** [newCtx.createImageData(width, newHeight)], line 163: the canvas
    refuses a dimension of zero with an [IndexSizeError]; otherwise the new
    pixels are transparent black.  [newHeight] is [NaN] for a width of zero
    only. *)
Definition createImageData {E : Type} (sw : nat) (sh : option nat)
    : completion (exception E) (list Z) :=
  match sh with
  | None => Throw TypeError
  | Some h =>
      if decide (sw = 0%nat \/ h = 0%nat) then Throw IndexSizeError
      else Normal (replicate (sw * h * channels) 0)
  end.

(** [target.set(source)], line 164: the source is written over the start of
    the target; a source longer than the target is a [RangeError]. *)
Definition typedArraySet {E : Type} (target source : list Z)
    : completion (exception E) (list Z) :=
  if decide (length source <= length target)%nat
  then Normal (source ++ drop (length source) target)
  else Throw RangeError.

Section ProcessImage.
(** The browser's side: decoding the file into pixels (lines 107-119,
    [loadImageFromBuffer] rejects on an unreadable image) and encoding the
    new canvas into a PNG blob (lines 170-172). *)
Context {E ArrayBuffer Blob : Type}.
Variable decodeImage : ArrayBuffer -> completion (exception E) ImageData.
Variable toBlob : Canvas -> Blob.

(** [processImage], lines 104-177. *)
Definition processImage (imageBuffer : ArrayBuffer)
    (maxDifferentPixels quantizationFactor : Z)
    : completion (exception E) Blob :=
  bind (decodeImage imageBuffer) (fun img =>
  let out := compactRows (data img) (width img) (height img)
               maxDifferentPixels quantizationFactor in
  bind (createImageData (newWidth out) (newHeight out)) (fun newImageData =>
  bind (typedArraySet newImageData (newData out)) (fun pixels =>
  Normal (toBlob {| canvasWidth := newWidth out;
                    canvasHeight := default 0%nat (newHeight out);
                    canvasPixels := pixels |})))).
End ProcessImage.

(** ** Reference definitions *)

(** The keys of all the pixels of row [y], left to right. *)
Definition rowKeyList (data : list Z) (width : nat) (quantizationFactor : Z)
    (y : nat) : list Z :=
  map (fun x => pixelKey data quantizationFactor
                  (y * width * channels + x * channels))
    (seq 0 width).

(** The number of distinct quantized colour keys of row [y]. *)
Definition distinctKeyCount (data : list Z) (width : nat)
    (quantizationFactor : Z) (y : nat) : nat :=
  size (list_to_set (rowKeyList data width quantizationFactor y) : gset Z).

(** The scan without early exit: the whole row is scanned and the count is
    compared with the threshold afterwards. *)
Definition rowIsContent_reference (data : list Z) (width : nat)
    (maxDifferentPixels quantizationFactor : Z) (y : nat) : bool :=
  bool_decide
    (maxDifferentPixels <
       Z.of_nat (distinctKeyCount data width quantizationFactor y)).

Definition compactRows_reference (data : list Z) (width height : nat)
    (maxDifferentPixels quantizationFactor : Z) : Compacted :=
  let rows :=
    fold_left
      (fun acc y =>
         if rowIsContent_reference data width maxDifferentPixels
              quantizationFactor y
         then acc ++ rowBytes data width y else acc)
      (seq 0 height) [] in
  {| newWidth := width;
     newHeight := exactQuotient (length rows) (width * channels);
     newRows := rows;
     newData := map toUint8Clamped rows |}.

(** The rows that are copied, top to bottom. *)
Definition contentRows (data : list Z) (width height : nat)
    (maxDifferentPixels quantizationFactor : Z) : list nat :=
  filter (fun y => rowIsContent data width maxDifferentPixels
                     quantizationFactor y = true)
    (seq 0 height).

(** The content rows as the data model defines them: the rows with more
    than [maxDifferentPixels] distinct keys, top to bottom. *)
Definition contentRows_reference (data : list Z) (width height : nat)
    (maxDifferentPixels quantizationFactor : Z) : list nat :=
  filter (fun y => maxDifferentPixels <
                     Z.of_nat (distinctKeyCount data width
                                 quantizationFactor y))
    (seq 0 height).

(** The bytes of row [y] of a buffer. *)
Definition inputRow (data : list Z) (width : nat) (y : nat) : list Z :=
  take (width * channels) (drop (y * width * channels) data).

(** The contract of the compactor's input. *)
Record wellFormed (data : list Z) (width height : nat)
    (maxDifferentPixels quantizationFactor : Z) : Prop := {
  wf_length : length data = (width * height * channels)%nat;
  wf_bytes : Forall (fun b => 0 <= b < 256) data;
  wf_width : (0 < width)%nat;
  wf_height : (0 < height)%nat;
  wf_threshold : 0 <= maxDifferentPixels;
  wf_quantization : 0 < quantizationFactor
}.

(** The key of pixel [x] of the row that starts at [rowStart]. *)
Definition keyAt (data : list Z) (quantizationFactor : Z) (rowStart : nat)
    (x : nat) : Z :=
  pixelKey data quantizationFactor (rowStart + x * channels).

(** The value a channel contributes to the key: [Math.floor(data[i] / q)]
    as [|] sees it. *)
Definition channelValue (data : list Z) (quantizationFactor : Z) (i : nat)
    : Z :=
  default 0 (quantize (readByte data i) quantizationFactor).

(** ** Quantized colours *)

(** The key the channel loop packs from three quantized values, in the
    order red, green, blue. *)
Definition keyOfTriple (t : Z * Z * Z) : Z :=
  let '(r, g, b) := t in
  packStep (packStep (packStep 0 (Some r)) (Some g)) (Some b).

(** The quantized channels of the pixel that starts at [pixelStart]. *)
Definition quantizedTriple (data : list Z) (quantizationFactor : Z)
    (pixelStart : nat) : Z * Z * Z :=
  (default 0 (quantize (readByte data pixelStart) quantizationFactor),
   default 0 (quantize (readByte data (pixelStart + 1)) quantizationFactor),
   default 0 (quantize (readByte data (pixelStart + 2)) quantizationFactor)).

(** A quantized value that fits in four bits. *)
Definition fitsNibble (v : Z) : Prop := 0 <= v < 16.

Definition fitsNibbles (t : Z * Z * Z) : Prop :=
  fitsNibble t.1.1 /\ fitsNibble t.1.2 /\ fitsNibble t.2.

(** The number of distinct quantized colours of row [y]. *)
Definition distinctTripleCount (data : list Z) (width : nat)
    (quantizationFactor : Z) (y : nat) : nat :=
  size (list_to_set
          (map (fun x => quantizedTriple data quantizationFactor
                           (y * width * channels + x * channels))
             (seq 0 width)) : gset (Z * Z * Z)).

(** ** A concrete image *)

Definition red : list Z := [255; 0; 0; 255].
Definition black : list Z := [0; 0; 0; 255].
Definition white : list Z := [255; 255; 255; 255].
Definition green : list Z := [0; 255; 0; 255].
Definition blue : list Z := [0; 0; 255; 255].

Definition scenarioRow0 : list Z := red ++ red ++ red ++ red.
Definition scenarioRow1 : list Z := black ++ black ++ white ++ white.
Definition scenarioRow2 : list Z := red ++ green ++ blue ++ white.
Definition scenario : list Z := scenarioRow0 ++ scenarioRow1 ++ scenarioRow2.

(** The scenario with other alpha bytes. *)
Definition scenarioAlpha : list Z :=
  [255; 0; 0; 0;     255; 0; 0; 10;    255; 0; 0; 20;    255; 0; 0; 30;
   0; 0; 0; 40;      0; 0; 0; 50;      255; 255; 255; 60; 255; 255; 255; 70;
   255; 0; 0; 80;    0; 255; 0; 90;    0; 0; 255; 100;   255; 255; 255; 110].

(** An image of one red pixel. *)
Definition onePixel : ImageData := mkImageData 1 1 red.

(** Two pixels next to each other, for a quantization factor of 1. *)
Definition collidingRow : list Z := [0; 16; 0; 255; 1; 0; 0; 255].

(** ** The effect of [App], lines 10 and 22-36 *)

(** What the effect and the browser's timers share.  A timer's callback has
    captured [inputImageBuffer] and [maxDifferentPixels] as they were when
    the effect ran. *)
Record AppTimers (Buffer : Type) := mkAppTimers {
  activeTimers : gmap nat (Buffer * Z);  (* the browser's active timers *)
  timeout : option nat;                  (* [let timeout;], line 10 *)
  processCalls : list (Buffer * Z)       (* calls of [processImage] so far *)
}.
Arguments mkAppTimers {Buffer} _ _ _.
Arguments activeTimers {Buffer} _.
Arguments timeout {Buffer} _.
Arguments processCalls {Buffer} _.

(** What happens to the application: the effect runs because
    [inputImageBuffer] or [maxDifferentPixels] changed, or the browser fires
    the timer with some handle.  The delay of 333 ms is left out: a timer may
    fire at any later time. *)
Inductive appEvent (Buffer : Type) : Type :=
  | InputsChanged (inputImageBuffer : option Buffer) (maxDifferentPixels : Z)
  | TimerFires (handle : nat).
Arguments InputsChanged {Buffer} _ _.
Arguments TimerFires {Buffer} _.

Section Effect.
Context {Buffer : Type}.

(** The handle the browser picks for a new timer. *)
Variable newHandle : gmap nat (Buffer * Z) -> nat.

(** [clearTimeout(timeout)]: nothing happens for [undefined] or for a handle
    that is not active. *)
Definition clearTimeout (handle : option nat)
    (timers : gmap nat (Buffer * Z)) : gmap nat (Buffer * Z) :=
  match handle with
  | Some h => delete h timers
  | None => timers
  end.

(** [setTimeout(callback, 333)]: the new handle and the timers with it. *)
Definition setTimeout (callback : Buffer * Z)
    (timers : gmap nat (Buffer * Z)) : nat * gmap nat (Buffer * Z) :=
  let h := newHandle timers in (h, <[h := callback]> timers).

(** The effect, lines 22-36. *)
Definition effect (st : AppTimers Buffer) (inputImageBuffer : option Buffer)
    (maxDifferentPixels : Z) : AppTimers Buffer :=
  match inputImageBuffer with
  | None => st
  | Some buffer =>
      let cleared := clearTimeout (timeout st) (activeTimers st) in
      let '(h, timers) := setTimeout (buffer, maxDifferentPixels) cleared in
      {| activeTimers := timers; timeout := Some h;
         processCalls := processCalls st |}
  end.

(** The browser fires a timer: it leaves the active timers and its callback
    calls [processImage] with the values it captured. *)
Definition fireTimer (st : AppTimers Buffer) (handle : nat)
    : AppTimers Buffer :=
  match activeTimers st !! handle with
  | Some callback =>
      {| activeTimers := delete handle (activeTimers st);
         timeout := timeout st;
         processCalls := processCalls st ++ [callback] |}
  | None => st
  end.

Definition appStep (st : AppTimers Buffer) (e : appEvent Buffer)
    : AppTimers Buffer :=
  match e with
  | InputsChanged inputImageBuffer maxDifferentPixels =>
      effect st inputImageBuffer maxDifferentPixels
  | TimerFires handle => fireTimer st handle
  end.

Definition appRun (events : list (appEvent Buffer)) (st : AppTimers Buffer)
    : AppTimers Buffer :=
  fold_left appStep events st.

(** The page as loaded: no timer, [timeout] undefined. *)
Definition appStart : AppTimers Buffer :=
  {| activeTimers := ∅; timeout := None; processCalls := [] |}.

(** The values the effect scheduled, in order. *)
Definition scheduled (events : list (appEvent Buffer)) : list (Buffer * Z) :=
  omap (fun e => match e with
                 | InputsChanged (Some buffer) maxDifferentPixels =>
                     Some (buffer, maxDifferentPixels)
                 | _ => None
                 end) events.
End Effect.

(** A browser that gives a new timer the smallest handle above the number
    of active timers; a handle may come back once its timer has fired. *)
Definition smallHandle {Buffer : Type} (timers : gmap nat (Buffer * Z))
    : nat :=
  S (size timers).

(** Three changes of the threshold for image 1, then the timer fires. *)
Definition sliderBurst : list (appEvent nat) :=
  [InputsChanged None 5; InputsChanged (Some 1%nat) 5;
   InputsChanged (Some 1%nat) 6; InputsChanged (Some 1%nat) 7; TimerFires 1].

(** * Properties *)

(** ** The scan with early exit *)

Lemma scanRow_S data quantizationFactor maxDifferentPixels rowStart
    (n x : nat) (s : gset Z) :
  scanRow data quantizationFactor maxDifferentPixels rowStart (S n) x s =
  if decide (maxDifferentPixels <
               Z.of_nat (size ({[keyAt data quantizationFactor rowStart x]}
                               ∪ s)))
  then {[keyAt data quantizationFactor rowStart x]} ∪ s
  else scanRow data quantizationFactor maxDifferentPixels rowStart n (S x)
         ({[keyAt data quantizationFactor rowStart x]} ∪ s).
Proof. unfold keyAt. cbn [scanRow]. cbv zeta. reflexivity. Qed.

(** Whether the scan ends above the threshold depends only on the keys of the
    pixels still to come and on the set so far, not on where it stops. *)
Lemma scanRow_exceeds data quantizationFactor maxDifferentPixels rowStart
    (n x : nat) (s : gset Z) :
  maxDifferentPixels <
    Z.of_nat (size (scanRow data quantizationFactor maxDifferentPixels
                      rowStart n x s)) <->
  maxDifferentPixels <
    Z.of_nat (size (list_to_set
                      (map (keyAt data quantizationFactor rowStart) (seq x n))
                    ∪ s)).
Proof.
  revert x s. induction n as [|n IH]; intros x s.
  - cbn [seq map list_to_set scanRow]. by rewrite (left_id_L ∅ (∪)).
  - rewrite scanRow_S. cbn [seq map list_to_set].
    set (k := keyAt data quantizationFactor rowStart x).
    set (rest := list_to_set (map _ (seq (S x) n)) : gset Z).
    case_decide as Hbig.
    + split; [intros _|done].
      assert (size ({[k]} ∪ s) ≤ size ({[k]} ∪ rest ∪ s))%nat
        by (apply subseteq_size, union_mono_r, union_subseteq_l).
      lia.
    + rewrite IH. fold rest.
      by rewrite (assoc_L (∪)), (comm_L (∪) rest).
Qed.

(** The scan never holds a key that is not in the row. *)
Lemma scanRow_subseteq data quantizationFactor maxDifferentPixels rowStart
    (n x : nat) (s : gset Z) :
  scanRow data quantizationFactor maxDifferentPixels rowStart n x s ⊆
  list_to_set (map (keyAt data quantizationFactor rowStart) (seq x n)) ∪ s.
Proof.
  revert x s. induction n as [|n IH]; intros x s.
  - cbn [seq map list_to_set scanRow]. apply union_subseteq_r.
  - rewrite scanRow_S. cbn [seq map list_to_set].
    set (k := keyAt data quantizationFactor rowStart x).
    set (rest := list_to_set (map _ (seq (S x) n)) : gset Z).
    case_decide.
    + apply union_mono_r, union_subseteq_l.
    + etrans; [apply IH|]. fold rest.
      by rewrite (assoc_L (∪)), (comm_L (∪) rest).
Qed.

Lemma rowIsContent_reference_eq data width maxDifferentPixels
    quantizationFactor y :
  rowIsContent data width maxDifferentPixels quantizationFactor y =
  rowIsContent_reference data width maxDifferentPixels quantizationFactor y.
Proof.
  unfold rowIsContent, rowIsContent_reference, uniquePixelsOfRow,
    distinctKeyCount, rowKeyList.
  apply bool_decide_ext. rewrite scanRow_exceeds.
  by rewrite (right_id_L ∅ (∪)).
Qed.

Lemma rowIsContent_count data width maxDifferentPixels quantizationFactor y :
  rowIsContent data width maxDifferentPixels quantizationFactor y = true <->
  maxDifferentPixels <
    Z.of_nat (distinctKeyCount data width quantizationFactor y).
Proof.
  rewrite rowIsContent_reference_eq. unfold rowIsContent_reference.
  by rewrite bool_decide_eq_true.
Qed.

(** ** The row loop *)

Lemma rowBytes_length data width y :
  length (rowBytes data width y) = (width * channels)%nat.
Proof. unfold rowBytes. by rewrite length_map, length_seq. Qed.

Lemma rowLoop_from data width maxDifferentPixels quantizationFactor
    (ys : list nat) (acc : list (option Z)) :
  fold_left (rowStep data width maxDifferentPixels quantizationFactor) ys acc =
  acc ++ concat (map (rowBytes data width)
                   (filter (fun y => rowIsContent data width
                              maxDifferentPixels quantizationFactor y = true)
                      ys)).
Proof.
  revert acc. induction ys as [|y ys IH]; intros acc; simpl.
  - by rewrite (right_id_L [] (++)).
  - rewrite IH. unfold rowStep. rewrite filter_cons.
    destruct (rowIsContent _ _ _ _ y) eqn:Hy.
    + rewrite decide_True by done. simpl. by rewrite <- (assoc_L (++)).
    + by rewrite decide_False by done.
Qed.

(** [nonBlankRows] is the rows that pass the test, one after the other. *)
Lemma nonBlankRows_concat data width height maxDifferentPixels
    quantizationFactor :
  nonBlankRows data width height maxDifferentPixels quantizationFactor =
  concat (map (rowBytes data width)
            (contentRows data width height maxDifferentPixels
               quantizationFactor)).
Proof. unfold nonBlankRows. by rewrite rowLoop_from. Qed.

Lemma concat_rows_length data width (ys : list nat) :
  length (concat (map (rowBytes data width) ys)) =
  (length ys * (width * channels))%nat.
Proof.
  induction ys as [|y ys IH]; simpl; [done|].
  rewrite length_app, rowBytes_length, IH. lia.
Qed.

Lemma nonBlankRows_length data width height maxDifferentPixels
    quantizationFactor :
  length (nonBlankRows data width height maxDifferentPixels
            quantizationFactor) =
  (length (contentRows data width height maxDifferentPixels
             quantizationFactor) * (width * channels))%nat.
Proof. rewrite nonBlankRows_concat. apply concat_rows_length. Qed.

Lemma exactQuotient_mul (k b : nat) :
  (0 < b)%nat -> exactQuotient (k * b) b = Some k.
Proof.
  intros Hb. unfold exactQuotient.
  rewrite decide_False by lia.
  rewrite decide_True by (apply Nat.Div0.mod_mul).
  f_equal. apply Nat.div_mul. lia.
Qed.

Lemma newHeight_contentRows data width height maxDifferentPixels
    quantizationFactor :
  (0 < width)%nat ->
  newHeight (compactRows data width height maxDifferentPixels
               quantizationFactor) =
  Some (length (contentRows data width height maxDifferentPixels
                  quantizationFactor)).
Proof.
  intros Hw. unfold compactRows. simpl.
  rewrite nonBlankRows_length. apply exactQuotient_mul.
  unfold channels. lia.
Qed.

(** Inside a buffer of the right length, the copy loop reads the row's own
    bytes. *)
Lemma rowBytes_inputRow data width height y :
  length data = (width * height * channels)%nat ->
  (y < height)%nat ->
  rowBytes data width y = map Some (inputRow data width y).
Proof.
  intros Hlen Hy. unfold rowBytes, inputRow, readByte.
  apply list_eq. intros i.
  rewrite !list_lookup_fmap.
  destruct (decide (i < width * channels)%nat) as [Hi|Hi].
  - rewrite lookup_seq_lt by done. simpl.
    rewrite lookup_take_lt by done. rewrite lookup_drop.
    assert (y * width * channels + i < length data)%nat as Hlt by nia.
    apply lookup_lt_is_Some in Hlt as [b Hb]. by rewrite Hb.
  - rewrite lookup_seq_ge by lia. simpl.
    by rewrite lookup_take_ge by lia.
Qed.

(** The kept rows are listed from top to bottom, each once. *)
Lemma contentRows_sorted data width height maxDifferentPixels
    quantizationFactor :
  StronglySorted lt (contentRows data width height maxDifferentPixels
                       quantizationFactor).
Proof.
  unfold contentRows. generalize 0%nat.
  induction height as [|h IH]; intros a; simpl; [constructor|].
  rewrite filter_cons. case_decide.
  - constructor; [apply IH|].
    apply Forall_forall. intros y [_ Hy%elem_of_seq]%list_elem_of_filter. lia.
  - apply IH.
Qed.

Lemma elem_of_contentRows data width height maxDifferentPixels
    quantizationFactor y :
  y ∈ contentRows data width height maxDifferentPixels quantizationFactor <->
  (y < height)%nat /\
  rowIsContent data width maxDifferentPixels quantizationFactor y = true.
Proof.
  unfold contentRows. rewrite list_elem_of_filter, elem_of_seq.
  intuition lia.
Qed.

(** ** What the scan reads *)

Lemma pixelKey_channels data quantizationFactor pixelStart :
  pixelKey data quantizationFactor pixelStart =
  Z.lor (ToInt32 (shl32
    (Z.lor (ToInt32 (shl32
      (Z.lor (ToInt32 (shl32 0 4))
         (ToInt32 (channelValue data quantizationFactor (pixelStart + 0))))
      4))
      (ToInt32 (channelValue data quantizationFactor (pixelStart + 1))))
    4))
    (ToInt32 (channelValue data quantizationFactor (pixelStart + 2))).
Proof. reflexivity. Qed.

(** The key of a pixel depends on its first three channels only. *)
Lemma pixelKey_ext data1 data2 quantizationFactor pixelStart :
  (forall c, (c < channels - 1)%nat ->
     channelValue data1 quantizationFactor (pixelStart + c) =
     channelValue data2 quantizationFactor (pixelStart + c)) ->
  pixelKey data1 quantizationFactor pixelStart =
  pixelKey data2 quantizationFactor pixelStart.
Proof.
  intros H. rewrite !pixelKey_channels.
  rewrite (H 0%nat), (H 1%nat), (H 2%nat); unfold channels; [done|lia..].
Qed.

Lemma scanRow_ext data1 data2 quantizationFactor maxDifferentPixels rowStart
    (n x : nat) (s : gset Z) :
  (forall x', (x <= x' < x + n)%nat ->
     keyAt data1 quantizationFactor rowStart x' =
     keyAt data2 quantizationFactor rowStart x') ->
  scanRow data1 quantizationFactor maxDifferentPixels rowStart n x s =
  scanRow data2 quantizationFactor maxDifferentPixels rowStart n x s.
Proof.
  revert x s. induction n as [|n IH]; intros x s H; [done|].
  rewrite !scanRow_S, (H x) by lia.
  case_decide; [done|]. apply IH. intros x' Hx'. apply H. lia.
Qed.

Lemma rowIsContent_ext data1 data2 width maxDifferentPixels
    quantizationFactor y :
  (forall x c, (x < width)%nat -> (c < channels - 1)%nat ->
     channelValue data1 quantizationFactor
       (y * width * channels + x * channels + c) =
     channelValue data2 quantizationFactor
       (y * width * channels + x * channels + c)) ->
  rowIsContent data1 width maxDifferentPixels quantizationFactor y =
  rowIsContent data2 width maxDifferentPixels quantizationFactor y.
Proof.
  intros H. unfold rowIsContent, uniquePixelsOfRow.
  rewrite (scanRow_ext data1 data2); [done|].
  intros x Hx. apply pixelKey_ext. intros c Hc. apply H; [lia|done].
Qed.

(** ** Bytes through [Uint8ClampedArray] *)

Lemma toUint8Clamped_bytes (l : list Z) :
  Forall (fun b => 0 <= b < 256) l ->
  map toUint8Clamped (map Some l) = l.
Proof.
  induction 1 as [|b l Hb _ IH]; simpl; [done|].
  rewrite IH. f_equal. lia.
Qed.

Lemma inputRow_bytes data width y :
  Forall (fun b => 0 <= b < 256) data ->
  Forall (fun b => 0 <= b < 256) (inputRow data width y).
Proof. intros H. unfold inputRow. by apply Forall_take, Forall_drop. Qed.

Lemma concat_inputRows_bytes data width (ys : list nat) :
  Forall (fun b => 0 <= b < 256) data ->
  Forall (fun b => 0 <= b < 256) (concat (map (inputRow data width) ys)).
Proof.
  intros H. apply Forall_concat, Forall_forall.
  intros r (y & -> & _)%list_elem_of_fmap. by apply inputRow_bytes.
Qed.

(** With a buffer of the right length, the output is made of input rows. *)
Lemma nonBlankRows_inputRows data width height maxDifferentPixels
    quantizationFactor :
  length data = (width * height * channels)%nat ->
  nonBlankRows data width height maxDifferentPixels quantizationFactor =
  map Some (concat (map (inputRow data width)
                      (contentRows data width height maxDifferentPixels
                         quantizationFactor))).
Proof.
  intros Hlen. rewrite nonBlankRows_concat.
  assert (Forall (fun y => (y < height)%nat)
            (contentRows data width height maxDifferentPixels
               quantizationFactor)) as Hys.
  { apply Forall_forall. by intros y [? _]%elem_of_contentRows. }
  induction Hys as [|y ys Hy _ IH]; simpl; [done|].
  by rewrite fmap_app, IH, (rowBytes_inputRow _ _ height).
Qed.

Lemma compactRows_inputRows data width height maxDifferentPixels
    quantizationFactor :
  length data = (width * height * channels)%nat ->
  Forall (fun b => 0 <= b < 256) data ->
  (0 < width)%nat ->
  let ys := contentRows data width height maxDifferentPixels
              quantizationFactor in
  compactRows data width height maxDifferentPixels quantizationFactor =
  {| newWidth := width; newHeight := Some (length ys);
     newRows := map Some (concat (map (inputRow data width) ys));
     newData := concat (map (inputRow data width) ys) |}.
Proof.
  intros Hlen Hbytes Hw ys.
  pose proof (newHeight_contentRows data width height maxDifferentPixels
                quantizationFactor Hw) as Hh.
  unfold compactRows in *. cbn [newHeight] in Hh. rewrite Hh. fold ys.
  rewrite nonBlankRows_inputRows by done. fold ys.
  by rewrite toUint8Clamped_bytes by by apply concat_inputRows_bytes.
Qed.

Lemma scenario_wellFormed (maxDifferentPixels : Z) :
  0 <= maxDifferentPixels ->
  wellFormed scenario 4 3 maxDifferentPixels defaultQuantizationFactor.
Proof.
  intros Hm. split; [reflexivity| |lia|lia|done|done].
  repeat (constructor; [lia|]). constructor.
Qed.

(** ** Shape of the output *)

(** The rows that pass the test of line 146 are the rows with more than
    [maxDifferentPixels] distinct keys. *)
Lemma contentRows_reference_eq data width height maxDifferentPixels
    quantizationFactor :
  contentRows data width height maxDifferentPixels quantizationFactor =
  contentRows_reference data width height maxDifferentPixels
    quantizationFactor.
Proof.
  unfold contentRows, contentRows_reference. apply list_filter_iff.
  intros y. apply rowIsContent_count.
Qed.

(** C2: for a well-formed input the output holds exactly the content rows,
    the rows with more than [maxDifferentPixels] distinct keys: its length
    is (number of content rows) * width * 4, [newHeight] is the number of
    content rows, the width is the input's, and the rows are the input's
    content rows from top to bottom. *)
Theorem compactRows_shape data width height maxDifferentPixels
    quantizationFactor :
  wellFormed data width height maxDifferentPixels quantizationFactor ->
  let out := compactRows data width height maxDifferentPixels
               quantizationFactor in
  let ys := contentRows_reference data width height maxDifferentPixels
              quantizationFactor in
  length (newData out) = (length ys * width * 4)%nat /\
  newHeight out = Some (length ys) /\
  newWidth out = width /\
  newData out = concat (map (inputRow data width) ys) /\
  newRows out = map Some (newData out) /\
  StronglySorted lt ys /\
  (forall y, y ∈ ys <->
     (y < height)%nat /\
     maxDifferentPixels <
       Z.of_nat (distinctKeyCount data width quantizationFactor y)).
Proof.
  intros [Hlen Hbytes Hw _ _ _] out ys. unfold ys.
  rewrite <- contentRows_reference_eq. clear ys.
  set (ys := contentRows data width height maxDifferentPixels
               quantizationFactor).
  assert (newData out = concat (map (inputRow data width) ys)) as Hdata.
  { unfold out, compactRows. simpl.
    rewrite nonBlankRows_inputRows by done.
    by apply toUint8Clamped_bytes, concat_inputRows_bytes. }
  split_and!.
  - unfold out, compactRows. simpl.
    rewrite length_map, nonBlankRows_length. unfold channels. fold ys. lia.
  - by apply newHeight_contentRows.
  - done.
  - done.
  - rewrite Hdata. unfold out, compactRows. simpl.
    by apply nonBlankRows_inputRows.
  - apply contentRows_sorted.
  - intros y. unfold ys.
    by rewrite elem_of_contentRows, rowIsContent_count.
Qed.

Lemma compactRows_shape_witness :
  wellFormed scenario 4 3 1 defaultQuantizationFactor /\
  contentRows_reference scenario 4 3 1 defaultQuantizationFactor
    = [1; 2]%nat /\
  newHeight (compactRows scenario 4 3 1 defaultQuantizationFactor) =
    Some (length (contentRows_reference scenario 4 3 1
                    defaultQuantizationFactor)) /\
  newData (compactRows scenario 4 3 1 defaultQuantizationFactor) =
    concat (map (inputRow scenario 4)
              (contentRows_reference scenario 4 3 1
                 defaultQuantizationFactor)).
Proof.
  pose proof (compactRows_shape scenario 4 3 1 defaultQuantizationFactor
                (scenario_wellFormed 1 ltac:(lia)))
    as (_ & Hheight & _ & Hdata & _).
  split_and!; [by apply scenario_wellFormed|by vm_compute|done|done].
Defined.

(** ** The threshold *)

(** C3: the comparison with the threshold is strict.  A row is content
    exactly when its number of distinct keys is greater than
    [maxDifferentPixels]; a row with exactly [maxDifferentPixels] distinct
    keys is blank: the row loop leaves [nonBlankRows] as it was, and the row
    is not among the content rows. *)
Theorem threshold_strict data width height maxDifferentPixels
    quantizationFactor y :
  (rowIsContent data width maxDifferentPixels quantizationFactor y = true <->
   maxDifferentPixels <
     Z.of_nat (distinctKeyCount data width quantizationFactor y)) /\
  (Z.of_nat (distinctKeyCount data width quantizationFactor y) =
     maxDifferentPixels ->
   rowIsContent data width maxDifferentPixels quantizationFactor y = false /\
   (forall acc, rowStep data width maxDifferentPixels quantizationFactor
                  acc y = acc) /\
   y ∉ contentRows data width height maxDifferentPixels quantizationFactor).
Proof.
  split; [apply rowIsContent_count|].
  intros Heq.
  assert (rowIsContent data width maxDifferentPixels quantizationFactor y
          = false) as Hblank.
  { apply not_true_is_false. rewrite rowIsContent_count. lia. }
  split_and!; [done| |].
  - intros acc. unfold rowStep. by rewrite Hblank.
  - rewrite elem_of_contentRows, Hblank. by intros [_ ?].
Qed.

Lemma threshold_strict_witness :
  Z.of_nat (distinctKeyCount scenario 4 defaultQuantizationFactor 1) = 2 /\
  rowIsContent scenario 4 2 defaultQuantizationFactor 1 = false.
Proof.
  split; [by vm_compute|].
  apply (threshold_strict scenario 4 3 2 defaultQuantizationFactor 1).
  by vm_compute.
Defined.

(** Raising the threshold can only turn content rows into blank rows. *)
Lemma rowIsContent_antitone data width t1 t2 quantizationFactor y :
  t1 <= t2 ->
  rowIsContent data width t2 quantizationFactor y = true ->
  rowIsContent data width t1 quantizationFactor y = true.
Proof. rewrite !rowIsContent_count. lia. Qed.

Lemma contentRows_length_antitone data width height t1 t2
    quantizationFactor :
  t1 <= t2 ->
  (length (contentRows data width height t2 quantizationFactor) <=
   length (contentRows data width height t1 quantizationFactor))%nat.
Proof.
  intros Ht. unfold contentRows. generalize (seq 0 height).
  intros l. induction l as [|y l IH]; [done|].
  rewrite !filter_cons.
  destruct (rowIsContent data width t2 quantizationFactor y) eqn:H2.
  - rewrite (rowIsContent_antitone _ _ t1 t2) by done.
    rewrite !decide_True by done. simpl. lia.
  - rewrite (decide_False (P := false = true)) by done.
    case_decide; simpl; lia.
Qed.

(** C4: for a fixed buffer, width, height and quantization factor, the output
    height with threshold [t2] is at most the output height with a threshold
    [t1 <= t2]; so is the number of values in the output. *)
Theorem newHeight_antitone data width height t1 t2 quantizationFactor :
  0 <= t1 -> t1 <= t2 -> (0 < width)%nat ->
  exists h1 h2,
    newHeight (compactRows data width height t1 quantizationFactor) = Some h1 /\
    newHeight (compactRows data width height t2 quantizationFactor) = Some h2 /\
    (h2 <= h1)%nat /\
    (length (newData (compactRows data width height t2 quantizationFactor)) <=
     length (newData (compactRows data width height t1 quantizationFactor)))%nat.
Proof.
  intros _ Ht Hw.
  pose proof (contentRows_length_antitone data width height t1 t2
                quantizationFactor Ht) as Hle.
  eexists _, _. split_and!.
  - by apply newHeight_contentRows.
  - by apply newHeight_contentRows.
  - done.
  - unfold compactRows. simpl. rewrite !length_map, !nonBlankRows_length.
    by apply Nat.mul_le_mono_r.
Qed.

Lemma newHeight_antitone_witness :
  exists h1 h2,
    newHeight (compactRows scenario 4 3 1 defaultQuantizationFactor) = Some h1 /\
    newHeight (compactRows scenario 4 3 2 defaultQuantizationFactor) = Some h2 /\
    (h2 <= h1)%nat /\
    (length (newData (compactRows scenario 4 3 2 defaultQuantizationFactor)) <=
     length (newData (compactRows scenario 4 3 1 defaultQuantizationFactor)))%nat.
Proof.
  apply (newHeight_antitone scenario 4 3 1 2 defaultQuantizationFactor); lia.
Defined.

(** ** All rows content, all rows blank *)

Lemma inputRow_S data width y :
  inputRow data width (S y) = inputRow (drop (width * channels) data) width y.
Proof.
  unfold inputRow. rewrite drop_drop. do 2 f_equal. lia.
Qed.

Lemma concat_inputRows_all width height : forall data,
  length data = (width * height * channels)%nat ->
  concat (map (inputRow data width) (seq 0 height)) = data.
Proof.
  induction height as [|h IH]; intros data Hlen.
  - simpl. symmetry. apply nil_length_inv. lia.
  - cbn [seq map concat]. rewrite <- fmap_S_seq.
    change (map (inputRow data width) (S <$> seq 0 h))
      with ((inputRow data width) <$> (S <$> seq 0 h)).
    rewrite <- list_fmap_compose.
    rewrite (list_fmap_ext _ (inputRow (drop (width * channels) data) width)
               (seq 0 h))
      by (intros i y _; apply inputRow_S).
    change (concat (inputRow (drop (width * channels) data) width <$> seq 0 h))
      with (concat (map (inputRow (drop (width * channels) data) width)
                      (seq 0 h))).
    rewrite IH by (rewrite length_drop; lia).
    unfold inputRow. rewrite Nat.mul_0_l. simpl drop. apply take_drop.
Qed.

Lemma contentRows_all data width height maxDifferentPixels
    quantizationFactor :
  (forall y, (y < height)%nat ->
     rowIsContent data width maxDifferentPixels quantizationFactor y = true) ->
  contentRows data width height maxDifferentPixels quantizationFactor =
  seq 0 height.
Proof.
  intros H. unfold contentRows.
  assert (Forall (fun y => (y < height)%nat) (seq 0 height)) as Hys
    by (apply Forall_forall; intros y ?%elem_of_seq; lia).
  induction Hys as [|y ys Hy _ IH]; [done|].
  rewrite filter_cons, decide_True by auto. by rewrite IH.
Qed.

Lemma contentRows_none data width height maxDifferentPixels
    quantizationFactor :
  (forall y, (y < height)%nat ->
     rowIsContent data width maxDifferentPixels quantizationFactor y = false) ->
  contentRows data width height maxDifferentPixels quantizationFactor = [].
Proof.
  intros H. unfold contentRows.
  assert (Forall (fun y => (y < height)%nat) (seq 0 height)) as Hys
    by (apply Forall_forall; intros y ?%elem_of_seq; lia).
  induction Hys as [|y ys Hy _ IH]; [done|].
  rewrite filter_cons, decide_False; [done|]. rewrite H by done. done.
Qed.

(** C5: when every row has more than [maxDifferentPixels] distinct keys, the
    output is the input: same bytes, same height. *)
Theorem all_content_identity data width height maxDifferentPixels
    quantizationFactor :
  length data = (width * height * channels)%nat ->
  Forall (fun b => 0 <= b < 256) data ->
  (0 < width)%nat ->
  (forall y, (y < height)%nat ->
     maxDifferentPixels <
       Z.of_nat (distinctKeyCount data width quantizationFactor y)) ->
  compactRows data width height maxDifferentPixels quantizationFactor =
  {| newWidth := width; newHeight := Some height;
     newRows := map Some data; newData := data |}.
Proof.
  intros Hlen Hbytes Hw Hall.
  assert (contentRows data width height maxDifferentPixels
            quantizationFactor = seq 0 height) as Hys.
  { apply contentRows_all. intros y Hy. by apply rowIsContent_count, Hall. }
  assert (nonBlankRows data width height maxDifferentPixels
            quantizationFactor = map Some data) as Hrows.
  { rewrite nonBlankRows_inputRows, Hys by done.
    by rewrite concat_inputRows_all. }
  pose proof (newHeight_contentRows data width height maxDifferentPixels
                quantizationFactor Hw) as Hh.
  rewrite Hys, length_seq in Hh.
  unfold compactRows in *. simpl in Hh. rewrite Hh, Hrows.
  by rewrite toUint8Clamped_bytes.
Qed.

Lemma all_content_identity_witness :
  compactRows scenario 4 3 0 defaultQuantizationFactor =
  {| newWidth := 4; newHeight := Some 3%nat;
     newRows := map Some scenario; newData := scenario |}.
Proof.
  apply (all_content_identity scenario 4 3 0 defaultQuantizationFactor).
  - reflexivity.
  - apply (scenario_wellFormed 0). lia.
  - lia.
  - intros [|[|[|y]]] Hy; [by vm_compute..|lia].
Defined.

Lemma compactRows_all_blank data width height maxDifferentPixels
    quantizationFactor :
  (0 < width)%nat ->
  (forall y, (y < height)%nat ->
     Z.of_nat (distinctKeyCount data width quantizationFactor y)
     <= maxDifferentPixels) ->
  compactRows data width height maxDifferentPixels quantizationFactor =
  {| newWidth := width; newHeight := Some 0%nat;
     newRows := []; newData := [] |}.
Proof.
  intros Hw Hall.
  assert (contentRows data width height maxDifferentPixels
            quantizationFactor = []) as Hys.
  { apply contentRows_none. intros y Hy. apply not_true_is_false.
    rewrite rowIsContent_count. specialize (Hall y Hy). lia. }
  pose proof (newHeight_contentRows data width height maxDifferentPixels
                quantizationFactor Hw) as Hh.
  rewrite Hys in Hh.
  unfold compactRows in *. simpl in Hh. rewrite Hh.
  by rewrite nonBlankRows_concat, Hys.
Qed.

(** C6, as the code has it: when every row of the decoded image has at most
    [maxDifferentPixels] distinct keys, the loop leaves an empty buffer and
    a height of 0, and [processImage] does not return this zero-height
    image: [createImageData(width, 0)] throws [IndexSizeError], which the
    [catch] throws again. *)
Theorem all_blank_rejects {E ArrayBuffer Blob : Type}
    (decodeImage : ArrayBuffer -> completion (exception E) ImageData)
    (toBlob : Canvas -> Blob) imageBuffer img maxDifferentPixels
    quantizationFactor :
  decodeImage imageBuffer = Normal img ->
  (0 < width img)%nat ->
  (forall y, (y < height img)%nat ->
     Z.of_nat (distinctKeyCount (data img) (width img) quantizationFactor y)
     <= maxDifferentPixels) ->
  compactRows (data img) (width img) (height img) maxDifferentPixels
    quantizationFactor =
  {| newWidth := width img; newHeight := Some 0%nat;
     newRows := []; newData := [] |} /\
  processImage decodeImage toBlob imageBuffer maxDifferentPixels
    quantizationFactor = Throw IndexSizeError.
Proof.
  intros Hdecode Hw Hall.
  pose proof (compactRows_all_blank (data img) (width img) (height img)
                maxDifferentPixels quantizationFactor Hw Hall) as Hout.
  split; [done|].
  unfold processImage. rewrite Hdecode. cbn [bind]. rewrite Hout.
  cbn [newWidth newHeight]. unfold createImageData.
  by rewrite decide_True by by right.
Qed.

Lemma all_blank_rejects_witness :
  processImage (E := unit) (fun _ : unit => Normal onePixel)
    (fun canvas => canvas) tt 5 defaultQuantizationFactor =
  Throw IndexSizeError.
Proof.
  apply (all_blank_rejects (E := unit) (fun _ : unit => Normal onePixel)
           (fun canvas => canvas) tt onePixel 5 defaultQuantizationFactor).
  - reflexivity.
  - simpl. lia.
  - simpl. intros [|y] Hy; [by vm_compute|lia].
Defined.

(** ** Early exit *)

(** C7: the scan that stops as soon as the set is larger than the threshold
    classifies every row as the scan of the whole row does, and the two
    compactors return the same buffer and height. *)
Theorem early_exit_refines data width height maxDifferentPixels
    quantizationFactor :
  (forall y,
     rowIsContent data width maxDifferentPixels quantizationFactor y =
     rowIsContent_reference data width maxDifferentPixels
       quantizationFactor y) /\
  compactRows data width height maxDifferentPixels quantizationFactor =
  compactRows_reference data width height maxDifferentPixels
    quantizationFactor.
Proof.
  split; [intros y; apply rowIsContent_reference_eq|].
  unfold compactRows, compactRows_reference, nonBlankRows.
  assert (forall ys acc,
    fold_left (rowStep data width maxDifferentPixels quantizationFactor)
      ys acc =
    fold_left
      (fun acc y =>
         if rowIsContent_reference data width maxDifferentPixels
              quantizationFactor y
         then acc ++ rowBytes data width y else acc) ys acc) as Hloop.
  { induction ys as [|y ys IH]; intros acc; [done|].
    simpl. rewrite IH. unfold rowStep.
    by rewrite rowIsContent_reference_eq. }
  by rewrite Hloop.
Qed.

(** ** The alpha channel *)

Lemma channel_index_mod (y width x c : nat) :
  (c < channels - 1)%nat ->
  ((y * width * channels + x * channels + c) mod channels)%nat = c.
Proof.
  unfold channels. intros Hc.
  replace (y * width * 4 + x * 4 + c)%nat
    with (c + (y * width + x) * 4)%nat by lia.
  rewrite Nat.Div0.mod_add. apply Nat.mod_small. lia.
Qed.

(** Two buffers that agree outside the alpha bytes give every row the same
    class. *)
Lemma rowIsContent_alpha data1 data2 width maxDifferentPixels
    quantizationFactor y :
  (forall i, (i mod channels)%nat <> 3%nat -> data1 !! i = data2 !! i) ->
  rowIsContent data1 width maxDifferentPixels quantizationFactor y =
  rowIsContent data2 width maxDifferentPixels quantizationFactor y.
Proof.
  intros Hagree. apply rowIsContent_ext. intros x c Hx Hc.
  unfold channelValue, readByte. rewrite Hagree; [done|].
  rewrite channel_index_mod by done. unfold channels in Hc. lia.
Qed.

(** C8: the class of a row does not depend on the alpha bytes, and the rows
    copied to the output are the input's rows, all four channels as they
    were. *)
Theorem alpha_independent data1 data2 width height maxDifferentPixels
    quantizationFactor :
  length data1 = (width * height * channels)%nat ->
  length data2 = (width * height * channels)%nat ->
  (forall i, (i mod channels)%nat <> 3%nat -> data1 !! i = data2 !! i) ->
  (forall y,
     rowIsContent data1 width maxDifferentPixels quantizationFactor y =
     rowIsContent data2 width maxDifferentPixels quantizationFactor y) /\
  contentRows data1 width height maxDifferentPixels quantizationFactor =
  contentRows data2 width height maxDifferentPixels quantizationFactor /\
  newRows (compactRows data1 width height maxDifferentPixels
             quantizationFactor) =
  map Some (concat (map (inputRow data1 width)
                      (contentRows data1 width height maxDifferentPixels
                         quantizationFactor))) /\
  newRows (compactRows data2 width height maxDifferentPixels
             quantizationFactor) =
  map Some (concat (map (inputRow data2 width)
                      (contentRows data1 width height maxDifferentPixels
                         quantizationFactor))).
Proof.
  intros Hlen1 Hlen2 Hagree.
  assert (contentRows data1 width height maxDifferentPixels
            quantizationFactor =
          contentRows data2 width height maxDifferentPixels
            quantizationFactor) as Hys.
  { unfold contentRows. apply list_filter_iff. intros y.
    by rewrite (rowIsContent_alpha data1 data2). }
  split_and!.
  - intros y. by apply rowIsContent_alpha.
  - done.
  - unfold compactRows. simpl. by apply nonBlankRows_inputRows.
  - rewrite Hys. unfold compactRows. simpl. by apply nonBlankRows_inputRows.
Qed.

Lemma alpha_independent_witness :
  contentRows scenario 4 3 1 defaultQuantizationFactor =
  contentRows scenarioAlpha 4 3 1 defaultQuantizationFactor /\
  newRows (compactRows scenarioAlpha 4 3 1 defaultQuantizationFactor) =
  map Some (concat (map (inputRow scenarioAlpha 4)
                      (contentRows scenario 4 3 1
                         defaultQuantizationFactor))).
Proof.
  assert (forall i, (i mod channels)%nat <> 3%nat ->
            scenario !! i = scenarioAlpha !! i) as Hagree.
  { intros i Hi.
    do 48 (destruct i as [|i]; [first [reflexivity | by destruct Hi]|]).
    reflexivity. }
  pose proof (alpha_independent scenario scenarioAlpha 4 3 1
                defaultQuantizationFactor eq_refl eq_refl Hagree)
    as (_ & Hys & _ & Hrows).
  split; [exact Hys | exact Hrows].
Defined.

(** ** The scenario *)

Lemma rowKeyList_ext data1 data2 width quantizationFactor y :
  (forall x c, (x < width)%nat -> (c < channels - 1)%nat ->
     data1 !! (y * width * channels + x * channels + c)%nat =
     data2 !! (y * width * channels + x * channels + c)%nat) ->
  rowKeyList data1 width quantizationFactor y =
  rowKeyList data2 width quantizationFactor y.
Proof.
  intros H. unfold rowKeyList. apply map_ext_in.
  intros x [_ Hx]%in_seq. apply pixelKey_ext. intros c Hc.
  unfold channelValue, readByte. by rewrite H by (done || lia).
Qed.

(** C1: a 4 by 3 image whose row 0 is solid red, whose row 1 has two
    distinct keys and whose row 2 has four, compacted with
    [maxDifferentPixels = 1] and the default quantization factor, gives
    an image of width 4 and height 2 whose bytes are rows 1 and 2 of the
    input, in that order. *)
Theorem scenario_rows data :
  length data = 48%nat ->
  Forall (fun b => 0 <= b < 256) data ->
  inputRow data 4 0 = scenarioRow0 ->
  distinctKeyCount data 4 defaultQuantizationFactor 1 = 2%nat ->
  distinctKeyCount data 4 defaultQuantizationFactor 2 = 4%nat ->
  compactRows data 4 3 1 defaultQuantizationFactor =
  {| newWidth := 4; newHeight := Some 2%nat;
     newRows := map Some (inputRow data 4 1 ++ inputRow data 4 2);
     newData := inputRow data 4 1 ++ inputRow data 4 2 |}.
Proof.
  intros Hlen Hbytes Hred H1 H2.
  assert (distinctKeyCount data 4 defaultQuantizationFactor 0 = 1%nat) as H0.
  { unfold distinctKeyCount.
    rewrite (rowKeyList_ext data scenarioRow0); [by vm_compute|].
    intros x c Hx Hc. rewrite <- Hred. unfold inputRow.
    rewrite lookup_take_lt by (unfold channels in *; lia).
    by rewrite lookup_drop. }
  assert (contentRows data 4 3 1 defaultQuantizationFactor = [1; 2]%nat)
    as Hys.
  { unfold contentRows. cbn [seq]. rewrite !filter_cons, filter_nil.
    rewrite decide_False, !decide_True; [done|..].
    - apply rowIsContent_count. rewrite H2. lia.
    - apply rowIsContent_count. rewrite H1. lia.
    - rewrite rowIsContent_count, H0. lia. }
  rewrite (compactRows_inputRows data 4 3) by (done || lia).
  rewrite Hys. cbn [map concat length]. by rewrite (right_id_L [] (++)).
Qed.

Lemma scenario_rows_witness :
  compactRows scenario 4 3 1 defaultQuantizationFactor =
  {| newWidth := 4; newHeight := Some 2%nat;
     newRows := map Some (scenarioRow1 ++ scenarioRow2);
     newData := scenarioRow1 ++ scenarioRow2 |}.
Proof.
  apply (scenario_rows scenario).
  - reflexivity.
  - apply (scenario_wellFormed 0). lia.
  - reflexivity.
  - by vm_compute.
  - by vm_compute.
Defined.

(** ** The key *)

Lemma ToInt32_small z : - 2 ^ 31 <= z < 2 ^ 31 -> ToInt32 z = z.
Proof. intros Hz. unfold ToInt32. rewrite Z.mod_small; lia. Qed.

Lemma land_shiftl_nibble p v : fitsNibble v -> Z.land (Z.shiftl p 4) v = 0.
Proof.
  intros [Hv0 Hv]. apply Z.bits_inj'. intros n Hn.
  rewrite Z.land_spec, Z.bits_0.
  destruct (Z.lt_ge_cases n 4) as [Hlow|Hhigh].
  - by rewrite Z.shiftl_spec_low.
  - destruct (decide (v = 0)) as [->|Hne].
    + by rewrite Z.bits_0, andb_false_r.
    + rewrite (Z.bits_above_log2 v n), andb_false_r; [done|lia|].
      assert (Z.log2 v < 4) by (apply Z.log2_lt_pow2; lia). lia.
Qed.

Lemma lor_shiftl_nibble p v :
  fitsNibble v -> Z.lor (Z.shiftl p 4) v = p * 16 + v.
Proof.
  intros Hv.
  rewrite <- Z.lxor_lor, <- Z.add_nocarry_lxor
    by by apply land_shiftl_nibble.
  rewrite Z.shiftl_mul_pow2 by lia. lia.
Qed.

Lemma packStep_nibble p v :
  0 <= p < 2 ^ 20 -> fitsNibble v -> packStep p (Some v) = p * 16 + v.
Proof.
  intros Hp Hv. pose proof Hv as [Hv0 Hv16].
  unfold packStep, or32, shl32. simpl default.
  assert (Z.shiftl p 4 = p * 16) as Hs by (rewrite Z.shiftl_mul_pow2; lia).
  rewrite (ToInt32_small p), Hs, !(ToInt32_small (p * 16)),
    (ToInt32_small v) by lia.
  rewrite <- Hs at 1. by apply lor_shiftl_nibble.
Qed.

Lemma keyOfTriple_nibbles r g b :
  fitsNibbles (r, g, b) -> keyOfTriple (r, g, b) = r * 256 + g * 16 + b.
Proof.
  intros (Hr & Hg & Hb). simpl in Hr, Hg, Hb.
  pose proof Hr as [? ?]. pose proof Hg as [? ?].
  unfold keyOfTriple.
  rewrite (packStep_nibble 0 r) by (done || lia).
  rewrite (packStep_nibble (0 * 16 + r) g) by (done || lia).
  rewrite packStep_nibble by (done || lia). lia.
Qed.

Lemma pixelKey_keyOfTriple data quantizationFactor pixelStart :
  pixelKey data quantizationFactor pixelStart =
  keyOfTriple (quantizedTriple data quantizationFactor pixelStart).
Proof.
  rewrite pixelKey_channels. unfold keyOfTriple, quantizedTriple, packStep,
    or32, channelValue. simpl default. by rewrite Nat.add_0_r.
Qed.

Lemma keyOfTriple_inj t t' :
  fitsNibbles t -> fitsNibbles t' ->
  keyOfTriple t = keyOfTriple t' -> t = t'.
Proof.
  destruct t as [[r g] b], t' as [[r' g'] b'].
  intros Ht Ht'. rewrite !keyOfTriple_nibbles by done.
  destruct Ht as (Hr & Hg & Hb), Ht' as (Hr' & Hg' & Hb').
  unfold fitsNibble in *. simpl in *. intros Hkey.
  assert (r = r') by lia. assert (g = g') by lia. assert (b = b') by lia.
  congruence.
Qed.

(** With the default factor every quantized byte fits in four bits. *)
Lemma quantizedTriple_default_nibbles data pixelStart :
  Forall (fun b => 0 <= b < 256) data ->
  fitsNibbles (quantizedTriple data defaultQuantizationFactor pixelStart).
Proof.
  intros Hbytes.
  assert (forall i, fitsNibble
            (default 0 (quantize (readByte data i)
                          defaultQuantizationFactor))) as Hfit.
  { intros i. unfold readByte, fitsNibble, defaultQuantizationFactor.
    destruct (data !! i) as [b|] eqn:Hb; cbn [quantize default]; [|lia].
    rewrite Forall_lookup in Hbytes. specialize (Hbytes i b Hb).
    rewrite decide_False by done. cbn [default].
    split; [apply Z.div_pos; lia|apply Z.div_lt_upper_bound; lia]. }
  unfold fitsNibbles, quantizedTriple. simpl. auto.
Qed.

(** C10: the key is packed from the three quantized values with shifts of
    four bits, whatever the quantization factor.  It tells quantized colours
    apart when they fit in four bits, as they do for bytes and the default
    factor 16; with the factor 1 two pixels with different quantized colours
    get the same key, and their row counts one distinct key for two distinct
    colours. *)
Theorem key_packing :
  (forall data quantizationFactor pixelStart,
     pixelKey data quantizationFactor pixelStart =
     keyOfTriple (quantizedTriple data quantizationFactor pixelStart)) /\
  (forall r g b, fitsNibbles (r, g, b) ->
     keyOfTriple (r, g, b) = Z.lor (Z.shiftl (Z.lor (Z.shiftl r 4) g) 4) b) /\
  (forall t t', fitsNibbles t -> fitsNibbles t' ->
     keyOfTriple t = keyOfTriple t' -> t = t') /\
  (forall data data' p p',
     Forall (fun b => 0 <= b < 256) data ->
     Forall (fun b => 0 <= b < 256) data' ->
     pixelKey data defaultQuantizationFactor p =
     pixelKey data' defaultQuantizationFactor p' ->
     quantizedTriple data defaultQuantizationFactor p =
     quantizedTriple data' defaultQuantizationFactor p') /\
  (0 < 1 < 16 /\
   Forall (fun b => 0 <= b < 256) collidingRow /\
   quantizedTriple collidingRow 1 0 <> quantizedTriple collidingRow 1 4 /\
   pixelKey collidingRow 1 0 = pixelKey collidingRow 1 4 /\
   distinctTripleCount collidingRow 2 1 0 = 2%nat /\
   distinctKeyCount collidingRow 2 1 0 = 1%nat /\
   rowIsContent collidingRow 2 1 1 0 = false).
Proof.
  split_and!.
  - apply pixelKey_keyOfTriple.
  - intros r g b Ht. rewrite keyOfTriple_nibbles by done.
    destruct Ht as (_ & Hg & Hb). simpl in Hg, Hb.
    rewrite !lor_shiftl_nibble by done. lia.
  - apply keyOfTriple_inj.
  - intros data data' p p' Hd Hd'. rewrite !pixelKey_keyOfTriple.
    apply keyOfTriple_inj; by apply quantizedTriple_default_nibbles.
  - lia.
  - lia.
  - unfold collidingRow. repeat (constructor; [lia|]). constructor.
  - vm_compute. congruence.
  - by vm_compute.
  - by vm_compute.
  - by vm_compute.
  - by vm_compute.
Qed.

Lemma key_packing_witness :
  fitsNibbles (15, 0, 0) /\
  keyOfTriple (15, 0, 0) = Z.lor (Z.shiftl (Z.lor (Z.shiftl 15 4) 0) 4) 0.
Proof.
  assert (fitsNibbles (15, 0, 0)) as Hfit
    by (unfold fitsNibbles, fitsNibble; simpl; lia).
  split; [exact Hfit|].
  exact (proj1 (proj2 key_packing) 15 0 0 Hfit).
Defined.

(** ** The pipeline *)

Section Pipeline.
Context {E ArrayBuffer Blob : Type}.
Context (decodeImage : ArrayBuffer -> completion (exception E) ImageData).
Context (toBlob : Canvas -> Blob).

(** A file that does not decode rejects the promise before any row is
    looked at. *)
Lemma processImage_decode_failure imageBuffer maxDifferentPixels
    quantizationFactor e :
  decodeImage imageBuffer = Throw e ->
  processImage decodeImage toBlob imageBuffer maxDifferentPixels
    quantizationFactor = Throw e.
Proof. intros H. unfold processImage. by rewrite H. Qed.

Lemma concat_contentRows_length data width height maxDifferentPixels
    quantizationFactor :
  length data = (width * height * channels)%nat ->
  length (concat (map (inputRow data width)
                    (contentRows data width height maxDifferentPixels
                       quantizationFactor))) =
  (length (contentRows data width height maxDifferentPixels
             quantizationFactor) * (width * channels))%nat.
Proof.
  intros Hlen.
  pose proof (nonBlankRows_length data width height maxDifferentPixels
                quantizationFactor) as Hnl.
  rewrite nonBlankRows_inputRows in Hnl by done.
  by rewrite length_map in Hnl.
Qed.

(** X14: for a decoded image of bytes with width > 0, [processImage]
    resolves exactly when some row has more than [maxDifferentPixels]
    distinct keys, and then with the blob of a canvas of the same width,
    as high as there are such rows, holding these rows; when no row has,
    it rejects with [IndexSizeError]. *)
Theorem processImage_resolves imageBuffer img maxDifferentPixels
    quantizationFactor :
  decodeImage imageBuffer = Normal img ->
  length (data img) = (width img * height img * channels)%nat ->
  Forall (fun b => 0 <= b < 256) (data img) ->
  (0 < width img)%nat ->
  let ys := contentRows_reference (data img) (width img) (height img)
              maxDifferentPixels quantizationFactor in
  processImage decodeImage toBlob imageBuffer maxDifferentPixels
    quantizationFactor =
  if decide (ys = [])
  then Throw IndexSizeError
  else Normal (toBlob
                 {| canvasWidth := width img;
                    canvasHeight := length ys;
                    canvasPixels :=
                      concat (map (inputRow (data img) (width img)) ys) |}).
Proof.
  intros Hdecode Hlen Hbytes Hw ys. unfold ys.
  rewrite <- contentRows_reference_eq. clear ys.
  pose proof (concat_contentRows_length (data img) (width img) (height img)
                maxDifferentPixels quantizationFactor Hlen) as Hrows.
  unfold processImage. rewrite Hdecode. cbn [bind].
  rewrite compactRows_inputRows by done.
  cbn [newWidth newHeight newData default]. unfold createImageData.
  set (ys := contentRows (data img) (width img) (height img)
               maxDifferentPixels quantizationFactor) in *.
  destruct (decide (ys = [])) as [Hnil|Hsome].
  - rewrite Hnil. cbn [length]. by rewrite decide_True by by right.
  - assert (length ys <> 0%nat) as Hk
      by (intros H0; by apply Hsome, nil_length_inv).
    rewrite decide_False by lia. cbn [bind]. unfold typedArraySet.
    rewrite length_replicate, Hrows.
    rewrite decide_True by (unfold channels; lia). cbn [bind].
    rewrite drop_ge by (rewrite length_replicate; unfold channels; lia).
    by rewrite (right_id_L [] (++)).
Qed.
End Pipeline.

Lemma processImage_resolves_witness :
  processImage (E := unit) (fun _ : unit => Normal (mkImageData 4 3 scenario))
    (fun canvas => canvas) tt 1 defaultQuantizationFactor =
  Normal {| canvasWidth := 4; canvasHeight := 2;
            canvasPixels := scenarioRow1 ++ scenarioRow2 |}.
Proof.
  apply (processImage_resolves (E := unit)
           (fun _ : unit => Normal (mkImageData 4 3 scenario))
           (fun canvas => canvas) tt (mkImageData 4 3 scenario) 1
           defaultQuantizationFactor).
  - reflexivity.
  - reflexivity.
  - apply (scenario_wellFormed 0). lia.
  - simpl. lia.
Defined.

(** ** Values on the scenario *)

Example red_key : pixelKey red defaultQuantizationFactor 0 = 3840.
Proof. reflexivity. Qed.

Example white_key : pixelKey white defaultQuantizationFactor 0 = 4095.
Proof. reflexivity. Qed.

Example shift_wraps : shl32 (2 ^ 28 + 1) 4 = 16.
Proof. reflexivity. Qed.

Example scenario_counts :
  map (distinctKeyCount scenario 4 defaultQuantizationFactor) (seq 0 3) =
  [1; 2; 4]%nat.
Proof. by vm_compute. Qed.

Example scenario_early_exit :
  size (uniquePixelsOfRow scenario 4 1 defaultQuantizationFactor 2) = 2%nat.
Proof. by vm_compute. Qed.

Example zero_width_height : exactQuotient 0 (0 * channels) = None.
Proof. reflexivity. Qed.

(** * Further properties of the row loop *)

(** ** Counting keys *)

Lemma size_list_to_set_le `{Countable A} (l : list A) :
  (size (list_to_set l : gset A) <= length l)%nat.
Proof.
  induction l as [|a l IH]; cbn [list_to_set length].
  - by rewrite size_empty.
  - rewrite size_union_alt, size_singleton.
    assert (size (list_to_set l ∖ {[a]} : gset A) ≤
            size (list_to_set l : gset A))%nat
      by (apply subseteq_size, subseteq_difference_l; done).
    lia.
Qed.

Lemma size_add_le (k : Z) (s : gset Z) :
  (size ({[k]} ∪ s) <= S (size s))%nat.
Proof.
  rewrite size_union_alt, size_singleton.
  assert (size (s ∖ {[k]}) ≤ size s)%nat
    by (apply subseteq_size, subseteq_difference_l; done).
  lia.
Qed.

Lemma rowKeyList_length data width quantizationFactor y :
  length (rowKeyList data width quantizationFactor y) = width.
Proof. unfold rowKeyList. by rewrite length_map, length_seq. Qed.

Lemma distinctKeyCount_le_width data width quantizationFactor y :
  (distinctKeyCount data width quantizationFactor y <= width)%nat.
Proof.
  unfold distinctKeyCount.
  etrans; [apply size_list_to_set_le|]. by rewrite rowKeyList_length.
Qed.

Lemma distinctKeyCount_pos data width quantizationFactor y :
  (0 < width)%nat ->
  (1 <= distinctKeyCount data width quantizationFactor y)%nat.
Proof.
  intros Hw. unfold distinctKeyCount, rowKeyList.
  destruct width as [|w]; [lia|]. cbn [seq map list_to_set].
  rewrite <- (size_singleton (C := gset Z)
                (pixelKey data quantizationFactor
                   (y * S w * channels + 0 * channels))).
  apply subseteq_size, union_subseteq_l.
Qed.

Lemma contentRows_length_le data width height maxDifferentPixels
    quantizationFactor :
  (length (contentRows data width height maxDifferentPixels
             quantizationFactor) <= height)%nat.
Proof.
  unfold contentRows. etrans; [apply length_filter|]. by rewrite length_seq.
Qed.

(** X1: the output is never taller than the input, and never holds more
    bytes than width * height * 4. *)
Theorem output_not_taller data width height maxDifferentPixels
    quantizationFactor :
  (0 < width)%nat ->
  exists k,
    newHeight (compactRows data width height maxDifferentPixels
                 quantizationFactor) = Some k /\
    (k <= height)%nat /\
    length (newData (compactRows data width height maxDifferentPixels
                       quantizationFactor)) = (k * (width * channels))%nat.
Proof.
  intros Hw. eexists. split_and!.
  - by apply newHeight_contentRows.
  - apply contentRows_length_le.
  - unfold compactRows. cbn [newData].
    by rewrite length_map, nonBlankRows_length.
Qed.

Lemma output_not_taller_witness :
  exists k,
    newHeight (compactRows scenario 4 3 1 defaultQuantizationFactor)
      = Some k /\
    (k <= 3)%nat /\
    length (newData (compactRows scenario 4 3 1 defaultQuantizationFactor))
      = (k * (4 * channels))%nat.
Proof. apply (output_not_taller scenario 4 3 1). lia. Defined.

(** X2: a row has at most [width] distinct keys, so a threshold of at least
    [width] makes every row blank and the output empty, whatever the
    pixels. *)
Theorem threshold_at_least_width data width height maxDifferentPixels
    quantizationFactor :
  (0 < width)%nat ->
  Z.of_nat width <= maxDifferentPixels ->
  compactRows data width height maxDifferentPixels quantizationFactor =
  {| newWidth := width; newHeight := Some 0%nat;
     newRows := []; newData := [] |}.
Proof.
  intros Hw Hm.
  assert (contentRows data width height maxDifferentPixels
            quantizationFactor = []) as Hys.
  { apply contentRows_none. intros y _. apply not_true_is_false.
    rewrite rowIsContent_count.
    pose proof (distinctKeyCount_le_width data width quantizationFactor y).
    lia. }
  pose proof (newHeight_contentRows data width height maxDifferentPixels
                quantizationFactor Hw) as Hh.
  rewrite Hys in Hh. unfold compactRows in *. cbn [newHeight] in Hh.
  rewrite Hh. by rewrite nonBlankRows_concat, Hys.
Qed.

Lemma threshold_at_least_width_witness :
  compactRows scenario 4 3 4 defaultQuantizationFactor =
  {| newWidth := 4; newHeight := Some 0%nat;
     newRows := []; newData := [] |}.
Proof. apply (threshold_at_least_width scenario 4 3 4); lia. Defined.

(** X3: with a threshold of 0 (or below) no row is blank: a well-formed
    image comes out as it went in. *)
Theorem threshold_zero_identity data width height maxDifferentPixels
    quantizationFactor :
  length data = (width * height * channels)%nat ->
  Forall (fun b => 0 <= b < 256) data ->
  (0 < width)%nat ->
  maxDifferentPixels <= 0 ->
  compactRows data width height maxDifferentPixels quantizationFactor =
  {| newWidth := width; newHeight := Some height;
     newRows := map Some data; newData := data |}.
Proof.
  intros Hlen Hbytes Hw Hm.
  rewrite compactRows_inputRows by done.
  rewrite contentRows_all.
  - by rewrite length_seq, concat_inputRows_all.
  - intros y _. apply rowIsContent_count.
    pose proof (distinctKeyCount_pos data width quantizationFactor y Hw).
    lia.
Qed.

Lemma threshold_zero_identity_witness :
  compactRows scenario 4 3 0 defaultQuantizationFactor =
  {| newWidth := 4; newHeight := Some 3%nat;
     newRows := map Some scenario; newData := scenario |}.
Proof.
  apply (threshold_zero_identity scenario 4 3 0).
  - reflexivity.
  - apply (scenario_wellFormed 0). lia.
  - lia.
  - lia.
Defined.

(** ** What the [break] does to the set *)

Lemma scanRow_size_le data quantizationFactor maxDifferentPixels rowStart
    (n x : nat) (s : gset Z) :
  Z.of_nat (size s) <= maxDifferentPixels ->
  Z.of_nat (size (scanRow data quantizationFactor maxDifferentPixels
                    rowStart n x s)) <= maxDifferentPixels + 1.
Proof.
  revert x s. induction n as [|n IH]; intros x s Hs.
  - cbn [scanRow]. lia.
  - rewrite scanRow_S.
    pose proof (size_add_le (keyAt data quantizationFactor rowStart x) s).
    case_decide; [lia|]. apply IH. lia.
Qed.

Lemma scanRow_blank_full data quantizationFactor maxDifferentPixels rowStart
    (n x : nat) (s : gset Z) :
  ~ maxDifferentPixels <
      Z.of_nat (size (scanRow data quantizationFactor maxDifferentPixels
                        rowStart n x s)) ->
  scanRow data quantizationFactor maxDifferentPixels rowStart n x s =
  list_to_set (map (keyAt data quantizationFactor rowStart) (seq x n)) ∪ s.
Proof.
  revert x s. induction n as [|n IH]; intros x s.
  - intros _. cbn [seq map list_to_set scanRow]. by rewrite (left_id_L ∅ (∪)).
  - rewrite scanRow_S. cbn [seq map list_to_set].
    case_decide as Hbig; [done|]. intros Hblank. rewrite IH by done.
    set (rest := list_to_set (map _ (seq (S x) n)) : gset Z).
    by rewrite (assoc_L (∪)), (comm_L (∪) rest).
Qed.

(** X4: the [break] keeps the set small.  For a threshold that is not
    negative the set of line 146 has at most [maxDifferentPixels + 1] keys,
    and exactly that many on a content row. *)
Theorem uniquePixels_bounded data width maxDifferentPixels
    quantizationFactor y :
  0 <= maxDifferentPixels ->
  let n := Z.of_nat (size (uniquePixelsOfRow data width maxDifferentPixels
                             quantizationFactor y)) in
  n <= maxDifferentPixels + 1 /\
  (rowIsContent data width maxDifferentPixels quantizationFactor y = true ->
   n = maxDifferentPixels + 1).
Proof.
  intros Hm n.
  assert (n <= maxDifferentPixels + 1) as Hle.
  { unfold n, uniquePixelsOfRow. apply scanRow_size_le.
    rewrite size_empty. lia. }
  split; [done|].
  unfold rowIsContent. rewrite bool_decide_eq_true. fold n. lia.
Qed.

Lemma uniquePixels_bounded_witness :
  Z.of_nat (size (uniquePixelsOfRow scenario 4 1 defaultQuantizationFactor
                    2)) <= 1 + 1.
Proof.
  apply (uniquePixels_bounded scenario 4 1 defaultQuantizationFactor 2).
  lia.
Defined.

(** X5: on a blank row the scan reaches the last pixel: the set of line 146
    holds the key of every pixel of the row, and its size is the row's
    number of distinct keys. *)
Theorem blank_row_scanned_whole data width maxDifferentPixels
    quantizationFactor y :
  rowIsContent data width maxDifferentPixels quantizationFactor y = false ->
  uniquePixelsOfRow data width maxDifferentPixels quantizationFactor y =
    list_to_set (rowKeyList data width quantizationFactor y) /\
  size (uniquePixelsOfRow data width maxDifferentPixels quantizationFactor y)
    = distinctKeyCount data width quantizationFactor y.
Proof.
  intros Hblank.
  assert (uniquePixelsOfRow data width maxDifferentPixels quantizationFactor
            y = list_to_set (rowKeyList data width quantizationFactor y))
    as Heq.
  { unfold uniquePixelsOfRow, rowKeyList.
    rewrite scanRow_blank_full; [by rewrite (right_id_L ∅ (∪))|].
    unfold rowIsContent, uniquePixelsOfRow in Hblank.
    by apply bool_decide_eq_false in Hblank. }
  split; [done|]. unfold distinctKeyCount. by rewrite Heq.
Qed.

Lemma blank_row_scanned_whole_witness :
  size (uniquePixelsOfRow scenario 4 2 defaultQuantizationFactor 1)
    = distinctKeyCount scenario 4 defaultQuantizationFactor 1.
Proof.
  apply (blank_row_scanned_whole scenario 4 2 defaultQuantizationFactor 1).
  by vm_compute.
Defined.

(** ** Rows are classified one by one *)

Lemma pixelKey_app_l data1 data2 quantizationFactor pixelStart :
  (pixelStart + channels <= length data1)%nat ->
  pixelKey (data1 ++ data2) quantizationFactor pixelStart =
  pixelKey data1 quantizationFactor pixelStart.
Proof.
  intros Hp. apply pixelKey_ext. intros c Hc.
  unfold channelValue, readByte, channels in *.
  by rewrite lookup_app_l by lia.
Qed.

Lemma pixelKey_app_r data1 data2 quantizationFactor pixelStart :
  pixelKey (data1 ++ data2) quantizationFactor (length data1 + pixelStart) =
  pixelKey data2 quantizationFactor pixelStart.
Proof.
  rewrite !pixelKey_channels. unfold channelValue, readByte.
  rewrite !lookup_app_r by lia.
  by replace (length data1 + pixelStart + 0 - length data1)%nat
       with (pixelStart + 0)%nat by lia;
     replace (length data1 + pixelStart + 1 - length data1)%nat
       with (pixelStart + 1)%nat by lia;
     replace (length data1 + pixelStart + 2 - length data1)%nat
       with (pixelStart + 2)%nat by lia.
Qed.

(** The scan of a row depends on the keys of its pixels only, wherever the
    row lies. *)
Lemma scanRow_keys data1 data2 quantizationFactor maxDifferentPixels
    rowStart1 rowStart2 (n x : nat) (s : gset Z) :
  (forall x', (x <= x' < x + n)%nat ->
     keyAt data1 quantizationFactor rowStart1 x' =
     keyAt data2 quantizationFactor rowStart2 x') ->
  scanRow data1 quantizationFactor maxDifferentPixels rowStart1 n x s =
  scanRow data2 quantizationFactor maxDifferentPixels rowStart2 n x s.
Proof.
  revert x s. induction n as [|n IH]; intros x s H; [done|].
  rewrite !scanRow_S, (H x) by lia.
  case_decide; [done|]. apply IH. intros x' Hx'. apply H. lia.
Qed.

Lemma rowIsContent_keys data1 data2 width maxDifferentPixels
    quantizationFactor y1 y2 :
  (forall x, (x < width)%nat ->
     pixelKey data1 quantizationFactor
       (y1 * width * channels + x * channels) =
     pixelKey data2 quantizationFactor
       (y2 * width * channels + x * channels)) ->
  rowIsContent data1 width maxDifferentPixels quantizationFactor y1 =
  rowIsContent data2 width maxDifferentPixels quantizationFactor y2.
Proof.
  intros H. unfold rowIsContent, uniquePixelsOfRow.
  rewrite (scanRow_keys data1 data2 _ _ _ (y2 * width * channels));
    [done|].
  intros x Hx. apply H. lia.
Qed.

(** The rows of a list of row numbers, read through a renumbering. *)
Lemma rows_reindex (g : nat -> nat) data1 data2 width maxDifferentPixels
    quantizationFactor (l : list nat) :
  (forall y, y ∈ l ->
     rowIsContent data1 width maxDifferentPixels quantizationFactor (g y) =
     rowIsContent data2 width maxDifferentPixels quantizationFactor y /\
     rowBytes data1 width (g y) = rowBytes data2 width y) ->
  concat (map (rowBytes data1 width)
            (filter (fun y => rowIsContent data1 width maxDifferentPixels
                                quantizationFactor y = true)
               (map g l))) =
  concat (map (rowBytes data2 width)
            (filter (fun y => rowIsContent data2 width maxDifferentPixels
                                quantizationFactor y = true) l)).
Proof.
  induction l as [|y l IH]; intros H; [done|].
  cbn [map]. rewrite !filter_cons.
  destruct (H y) as [Hc Hb]; [by left|].
  specialize (IH (fun y' Hy' => H y' (list_elem_of_further _ _ _ Hy'))).
  rewrite Hc.
  destruct (rowIsContent data2 width maxDifferentPixels quantizationFactor y).
  - rewrite !decide_True by done. cbn [map concat]. by rewrite Hb, IH.
  - by rewrite !decide_False by done.
Qed.

Lemma nonBlankRows_app data1 data2 width height1 height2
    maxDifferentPixels quantizationFactor :
  length data1 = (width * height1 * channels)%nat ->
  nonBlankRows (data1 ++ data2) width (height1 + height2)
    maxDifferentPixels quantizationFactor =
  nonBlankRows data1 width height1 maxDifferentPixels quantizationFactor ++
  nonBlankRows data2 width height2 maxDifferentPixels quantizationFactor.
Proof.
  intros Hlen. rewrite !nonBlankRows_concat. unfold contentRows.
  rewrite seq_app, filter_app, map_app, concat_app. f_equal.
  - rewrite <- (rows_reindex id (data1 ++ data2) data1), map_id; [done|].
    intros y [_ Hy]%elem_of_seq. unfold id. split.
    + apply rowIsContent_keys. intros x Hx. apply pixelKey_app_l.
      unfold channels in *. nia.
    + unfold rowBytes. apply map_ext_in. intros i [? ?]%in_seq.
      unfold readByte. apply lookup_app_l. unfold channels in *. nia.
  - assert (seq (0 + height1) height2 =
            map (fun y => (height1 + y)%nat) (seq 0 height2)) as ->.
    { rewrite Nat.add_0_l. rewrite <- (Nat.add_0_r height1) at 1.
      symmetry. apply (fmap_add_seq height1 0). }
    apply (rows_reindex (fun y => height1 + y)%nat (data1 ++ data2) data2).
    intros y _. split.
    + apply rowIsContent_keys. intros x Hx.
      rewrite <- (pixelKey_app_r data1 data2). f_equal.
      unfold channels in *. nia.
    + unfold rowBytes. apply list_eq. intros i.
      rewrite !list_lookup_fmap.
      destruct (decide (i < width * channels)%nat) as [Hi|Hi].
      * rewrite !lookup_seq_lt by done. cbn [fmap option_fmap option_map].
        unfold readByte. rewrite lookup_app_r by (unfold channels in *; nia).
        do 2 f_equal. unfold channels in *. nia.
      * by rewrite !lookup_seq_ge by lia.
Qed.

(** X7: two images of the same width, one above the other, are compacted to
    the compacted first image above the compacted second one: no row
    influences the class of another. *)
Theorem compactRows_stacked data1 data2 width height1 height2
    maxDifferentPixels quantizationFactor :
  length data1 = (width * height1 * channels)%nat ->
  (0 < width)%nat ->
  let top := compactRows data1 width height1 maxDifferentPixels
               quantizationFactor in
  let bottom := compactRows data2 width height2 maxDifferentPixels
                  quantizationFactor in
  let both := compactRows (data1 ++ data2) width (height1 + height2)
                maxDifferentPixels quantizationFactor in
  newData both = newData top ++ newData bottom /\
  newRows both = newRows top ++ newRows bottom /\
  exists k1 k2,
    newHeight top = Some k1 /\ newHeight bottom = Some k2 /\
    newHeight both = Some (k1 + k2)%nat.
Proof.
  intros Hlen Hw top bottom both.
  pose proof (nonBlankRows_app data1 data2 width height1 height2
                maxDifferentPixels quantizationFactor Hlen) as Happ.
  split_and!.
  - unfold both, top, bottom, compactRows. cbn [newData].
    by rewrite Happ, map_app.
  - unfold both, top, bottom, compactRows. by cbn [newRows].
  - eexists _, _. split_and!; [by apply newHeight_contentRows..|].
    unfold both, compactRows. cbn [newHeight].
    rewrite Happ, length_app, !nonBlankRows_length, <- Nat.mul_add_distr_r.
    apply exactQuotient_mul. unfold channels. lia.
Qed.

Lemma compactRows_stacked_witness :
  newData (compactRows (scenarioRow0 ++ scenarioRow1 ++ scenarioRow2) 4
             (1 + 2) 1 defaultQuantizationFactor) =
  newData (compactRows scenarioRow0 4 1 1 defaultQuantizationFactor) ++
  newData (compactRows (scenarioRow1 ++ scenarioRow2) 4 2 1
             defaultQuantizationFactor).
Proof.
  apply (compactRows_stacked scenarioRow0 (scenarioRow1 ++ scenarioRow2)
           4 1 2 1 defaultQuantizationFactor); [reflexivity|lia].
Defined.

(** ** Compacting twice *)

Lemma inputRow_length data width height y :
  length data = (width * height * channels)%nat ->
  (y < height)%nat ->
  length (inputRow data width y) = (width * channels)%nat.
Proof.
  intros Hlen Hy. unfold inputRow. rewrite length_take, length_drop.
  unfold channels in *. nia.
Qed.

Lemma pixelKey_inputRow data width quantizationFactor y x :
  (x < width)%nat ->
  pixelKey (inputRow data width y) quantizationFactor
    (0 * width * channels + x * channels) =
  pixelKey data quantizationFactor (y * width * channels + x * channels).
Proof.
  intros Hx. rewrite !pixelKey_channels.
  unfold channelValue, readByte, inputRow.
  rewrite !lookup_take_lt by (unfold channels; lia).
  rewrite !lookup_drop.
  by replace (y * width * channels + (0 * width * channels + x * channels + 0))%nat
       with (y * width * channels + x * channels + 0)%nat by lia;
     replace (y * width * channels + (0 * width * channels + x * channels + 1))%nat
       with (y * width * channels + x * channels + 1)%nat by lia;
     replace (y * width * channels + (0 * width * channels + x * channels + 2))%nat
       with (y * width * channels + x * channels + 2)%nat by lia.
Qed.

Lemma nonBlankRows_single row width maxDifferentPixels quantizationFactor :
  length row = (width * channels)%nat ->
  rowIsContent row width maxDifferentPixels quantizationFactor 0 = true ->
  nonBlankRows row width 1 maxDifferentPixels quantizationFactor =
  map Some row.
Proof.
  intros Hlen Hc. unfold nonBlankRows. cbn [seq fold_left].
  unfold rowStep. rewrite Hc. cbn [app].
  rewrite (rowBytes_inputRow row width 1) by lia.
  unfold inputRow. rewrite Nat.mul_0_l. cbn [Nat.mul]. rewrite drop_0.
  by rewrite take_ge by (rewrite Hlen; lia).
Qed.

(** Content rows of an image, put together, are all content rows of the
    image they make. *)
Lemma nonBlankRows_of_content data width height maxDifferentPixels
    quantizationFactor (ys : list nat) :
  length data = (width * height * channels)%nat ->
  Forall (fun y => (y < height)%nat /\
            rowIsContent data width maxDifferentPixels quantizationFactor y
            = true) ys ->
  nonBlankRows (concat (map (inputRow data width) ys)) width (length ys)
    maxDifferentPixels quantizationFactor =
  map Some (concat (map (inputRow data width) ys)).
Proof.
  intros Hlen Hys. induction Hys as [|y ys [Hy Hc] _ IH]; [done|].
  cbn [map concat length].
  pose proof (inputRow_length data width height y Hlen Hy) as Hrow.
  rewrite (nonBlankRows_app _ _ width 1 (length ys)) by lia.
  rewrite IH, map_app. f_equal.
  apply nonBlankRows_single; [done|].
  rewrite <- Hc. apply rowIsContent_keys. intros x Hx.
  by apply pixelKey_inputRow.
Qed.

(** X6: compacting is idempotent.  The output of a well-formed image,
    compacted again with the same threshold and factor, is returned as it
    is. *)
Theorem compactRows_idempotent data width height maxDifferentPixels
    quantizationFactor :
  length data = (width * height * channels)%nat ->
  Forall (fun b => 0 <= b < 256) data ->
  (0 < width)%nat ->
  let out := compactRows data width height maxDifferentPixels
               quantizationFactor in
  exists k,
    newHeight out = Some k /\
    compactRows (newData out) (newWidth out) k maxDifferentPixels
      quantizationFactor = out.
Proof.
  intros Hlen Hbytes Hw out.
  set (ys := contentRows data width height maxDifferentPixels
               quantizationFactor).
  exists (length ys). unfold out.
  rewrite (compactRows_inputRows data) by done. fold ys.
  cbn [newHeight newData newWidth]. split; [done|].
  set (rows := concat (map (inputRow data width) ys)).
  assert (nonBlankRows rows width (length ys) maxDifferentPixels
            quantizationFactor = map Some rows) as Hrows.
  { apply (nonBlankRows_of_content data width height); [done|].
    apply Forall_forall. intros y Hy. by apply elem_of_contentRows. }
  assert (length rows = (length ys * (width * channels))%nat) as Hl.
  { pose proof (nonBlankRows_length data width height maxDifferentPixels
                  quantizationFactor) as Hnl.
    rewrite nonBlankRows_inputRows in Hnl by done.
    by rewrite length_map in Hnl. }
  unfold compactRows. rewrite Hrows, length_map, Hl.
  rewrite exactQuotient_mul by (unfold channels; lia).
  by rewrite toUint8Clamped_bytes by by apply concat_inputRows_bytes.
Qed.

Lemma compactRows_idempotent_witness :
  exists k,
    newHeight (compactRows scenario 4 3 1 defaultQuantizationFactor)
      = Some k /\
    compactRows
      (newData (compactRows scenario 4 3 1 defaultQuantizationFactor))
      (newWidth (compactRows scenario 4 3 1 defaultQuantizationFactor))
      k 1 defaultQuantizationFactor =
    compactRows scenario 4 3 1 defaultQuantizationFactor.
Proof.
  apply (compactRows_idempotent scenario 4 3 1 defaultQuantizationFactor).
  - reflexivity.
  - apply (scenario_wellFormed 0). lia.
  - lia.
Defined.

(** ** The size of a key *)



Lemma channelValue_byte data quantizationFactor i :
  Forall (fun b => 0 <= b < 256) data ->
  1 <= quantizationFactor ->
  0 <= channelValue data quantizationFactor i < 256 /\
  (16 <= quantizationFactor ->
   fitsNibble (channelValue data quantizationFactor i)).
Proof.
  intros Hbytes Hq. unfold channelValue, readByte, fitsNibble.
  destruct (data !! i) as [b|] eqn:Hb; cbn [quantize default]; [|lia].
  rewrite Forall_lookup in Hbytes. specialize (Hbytes i b Hb).
  rewrite decide_False by lia. cbn [default].
  split; [split|intros Hq16; split].
  - apply Z.div_pos; lia.
  - apply Z.div_lt_upper_bound; lia.
  - apply Z.div_pos; lia.
  - apply Z.div_lt_upper_bound; lia.
Qed.



(** ** Rows of one colour *)

(** X9: a row whose pixels all have the quantized colour of its first pixel
    has one distinct key, whatever its alpha bytes, and is dropped for every
    threshold of at least 1. *)
Theorem uniform_row_blank data width maxDifferentPixels quantizationFactor
    y :
  (0 < width)%nat ->
  (forall x c, (x < width)%nat -> (c < channels - 1)%nat ->
     channelValue data quantizationFactor
       (y * width * channels + x * channels + c) =
     channelValue data quantizationFactor (y * width * channels + c)) ->
  distinctKeyCount data width quantizationFactor y = 1%nat /\
  (1 <= maxDifferentPixels ->
   rowIsContent data width maxDifferentPixels quantizationFactor y = false).
Proof.
  intros Hw Hsame.
  set (k0 := pixelKey data quantizationFactor
               (y * width * channels + 0 * channels)).
  assert (forall x, (x < width)%nat ->
            pixelKey data quantizationFactor
              (y * width * channels + x * channels) = k0) as Hkeys.
  { intros x Hx. unfold k0. rewrite !pixelKey_channels.
    unfold channels in *.
    rewrite !(Hsame x) by lia. by rewrite !(Hsame 0%nat) by lia. }
  assert (distinctKeyCount data width quantizationFactor y <= 1)%nat as Hle.
  { unfold distinctKeyCount.
    rewrite <- (size_singleton (C := gset Z) k0).
    apply subseteq_size. intros k Hk.
    apply elem_of_list_to_set in Hk. unfold rowKeyList in Hk.
    apply list_elem_of_fmap in Hk as (x & -> & Hx%elem_of_seq).
    apply elem_of_singleton, Hkeys. lia. }
  pose proof (distinctKeyCount_pos data width quantizationFactor y Hw).
  split; [lia|]. intros Hm. apply not_true_is_false.
  rewrite rowIsContent_count. lia.
Qed.

Lemma uniform_row_blank_witness :
  distinctKeyCount scenarioAlpha 4 defaultQuantizationFactor 0 = 1%nat.
Proof.
  apply (uniform_row_blank scenarioAlpha 4 1 defaultQuantizationFactor 0).
  - lia.
  - intros [|[|[|[|x]]]] [|[|[|c]]] Hx Hc;
      first [reflexivity | unfold channels in *; lia].
Defined.

(** * The effect of [App] *)

Section EffectFacts.
Context {Buffer : Type} (newHandle : gmap nat (Buffer * Z) -> nat).

Implicit Types (st : AppTimers Buffer) (events : list (appEvent Buffer)).

(** As long as every active timer is the one [timeout] names,
    [clearTimeout(timeout)] leaves no timer. *)
Lemma clearTimeout_all st :
  (forall h c, activeTimers st !! h = Some c -> timeout st = Some h) ->
  clearTimeout (timeout st) (activeTimers st) = ∅.
Proof.
  intros Hinv. apply map_eq. intros h. rewrite lookup_empty.
  unfold clearTimeout. destruct (timeout st) as [t|] eqn:Ht.
  - rewrite lookup_delete. case_decide; [done|].
    destruct (activeTimers st !! h) as [c|] eqn:Hc; [|done].
    apply Hinv in Hc. congruence.
  - destruct (activeTimers st !! h) as [c|] eqn:Hc; [|done].
    apply Hinv in Hc. congruence.
Qed.

Lemma appStep_named st e :
  (forall h c, activeTimers st !! h = Some c -> timeout st = Some h) ->
  forall h c,
    activeTimers (appStep newHandle st e) !! h = Some c ->
    timeout (appStep newHandle st e) = Some h.
Proof.
  intros Hinv h c. destruct e as [[buffer|] m|h']; cbn [appStep].
  - unfold effect, setTimeout. rewrite clearTimeout_all by done.
    cbn [activeTimers timeout].
    intros [[-> _]|[_ Hc]]%lookup_insert_Some; [done|].
    by rewrite lookup_empty in Hc.
  - apply Hinv.
  - unfold fireTimer. destruct (activeTimers st !! h') as [c'|] eqn:Hc'.
    + cbn [activeTimers timeout].
      intros [_ Hc]%lookup_delete_Some. by apply (Hinv h c).
    + apply Hinv.
Qed.

Lemma appRun_named events st :
  (forall h c, activeTimers st !! h = Some c -> timeout st = Some h) ->
  forall h c,
    activeTimers (appRun newHandle events st) !! h = Some c ->
    timeout (appRun newHandle events st) = Some h.
Proof.
  revert st. induction events as [|e events IH]; intros st Hinv; [done|].
  cbn [appRun fold_left]. apply IH. by apply appStep_named.
Qed.

Lemma appStart_named h c :
  activeTimers (appStart (Buffer := Buffer)) !! h = Some c ->
  timeout (appStart (Buffer := Buffer)) = Some h.
Proof. cbn [appStart activeTimers]. by rewrite lookup_empty. Qed.

(** X10: however the changes of the inputs and the firings of timers
    alternate, at most one timer is active, and it is the one [timeout]
    names. *)
Theorem at_most_one_timer events :
  let st := appRun newHandle events appStart in
  activeTimers st = ∅ \/
  exists h callback,
    timeout st = Some h /\ activeTimers st = {[h := callback]}.
Proof.
  intros st.
  pose proof (appRun_named events appStart appStart_named) as Hinv.
  fold st in Hinv.
  destruct (timeout st) as [t|] eqn:Ht.
  - destruct (activeTimers st !! t) as [c|] eqn:Hc.
    + right. exists t, c. split; [done|]. apply map_eq. intros h.
      destruct (decide (t = h)) as [<-|Hne].
      * by rewrite lookup_singleton_eq.
      * rewrite lookup_singleton_ne by done.
        destruct (activeTimers st !! h) as [c'|] eqn:Hc'; [|done].
        apply Hinv in Hc'. congruence.
    + left. apply map_eq. intros h. rewrite lookup_empty.
      destruct (activeTimers st !! h) as [c'|] eqn:Hc'; [|done].
      apply Hinv in Hc' as Heq. congruence.
  - left. apply map_eq. intros h. rewrite lookup_empty.
    destruct (activeTimers st !! h) as [c'|] eqn:Hc'; [|done].
    apply Hinv in Hc'. congruence.
Qed.

(** Firing timers when one timer is active. *)
Lemma fire_single (handles : list nat) st h callback :
  activeTimers st = {[h := callback]} ->
  (h ∈ handles ->
   processCalls (appRun newHandle (map TimerFires handles) st) =
     processCalls st ++ [callback]) /\
  (h ∉ handles ->
   processCalls (appRun newHandle (map TimerFires handles) st) =
     processCalls st /\
   activeTimers (appRun newHandle (map TimerFires handles) st) =
     {[h := callback]}).
Proof.
  assert (forall (hs : list nat) st',
            activeTimers st' = ∅ ->
            processCalls (appRun newHandle (map TimerFires hs) st') =
            processCalls st') as Hnone.
  { induction hs as [|h' hs IH]; intros st' Hst'; [done|].
    cbn [map appRun fold_left appStep]. unfold fireTimer.
    rewrite Hst', lookup_empty. by apply IH. }
  revert st. induction handles as [|h' handles IH]; intros st Hst.
  - split; [by intros ?%elem_of_nil|done].
  - cbn [map appRun fold_left appStep]. unfold fireTimer. rewrite Hst.
    destruct (decide (h = h')) as [<-|Hne].
    + rewrite lookup_singleton_eq. split; [intros _|].
      * apply Hnone. cbn [activeTimers]. apply delete_singleton_eq.
      * intros Hnot. exfalso. apply Hnot. by left.
    + rewrite lookup_singleton_ne by done.
      destruct (IH st Hst) as [Hin Hout]. split.
      * intros [?|?]%elem_of_cons; [done|]. by apply Hin.
      * intros Hnot. apply Hout. intros ?. apply Hnot. by right.
Qed.

(** X11: the latest values win.  When the effect has run for a buffer and a
    threshold, exactly one timer is active, whatever was scheduled before;
    of the timers that fire afterwards only this one calls [processImage],
    once and with these values. *)
Theorem latest_values_win events buffer maxDifferentPixels
    (handles : list nat) :
  let before := appRun newHandle events appStart in
  let changed :=
    appStep newHandle before
      (InputsChanged (Some buffer) maxDifferentPixels) in
  let after := appRun newHandle (map TimerFires handles) changed in
  exists h,
    timeout changed = Some h /\
    activeTimers changed = {[h := (buffer, maxDifferentPixels)]} /\
    (h ∈ handles ->
     processCalls after =
       processCalls before ++ [(buffer, maxDifferentPixels)]) /\
    (h ∉ handles -> processCalls after = processCalls before).
Proof.
  intros before changed after.
  pose proof (appRun_named events appStart appStart_named) as Hinv.
  fold before in Hinv.
  assert (changed =
          {| activeTimers := {[newHandle ∅ := (buffer, maxDifferentPixels)]};
             timeout := Some (newHandle ∅);
             processCalls := processCalls before |}) as Hchanged.
  { unfold changed. cbn [appStep]. unfold effect, setTimeout.
    rewrite clearTimeout_all by done. by rewrite insert_empty. }
  destruct (fire_single handles changed (newHandle ∅)
              (buffer, maxDifferentPixels)) as [Hfired Hnot];
    [by rewrite Hchanged|].
  fold after in Hfired, Hnot.
  assert (processCalls changed = processCalls before) as Hcalls
    by by rewrite Hchanged.
  rewrite Hcalls in Hfired, Hnot.
  exists (newHandle ∅). rewrite Hchanged. cbn [timeout activeTimers].
  split_and!; [done|done|done|].
  intros Hout. by apply Hnot.
Qed.

Lemma scheduled_one (e : appEvent Buffer) :
  scheduled [e] =
  match e with
  | InputsChanged (Some buffer) maxDifferentPixels =>
      [(buffer, maxDifferentPixels)]
  | _ => []
  end.
Proof. by destruct e as [[?|] ?|?]. Qed.

(** The calls made are among the values scheduled, in their order; when a
    timer is active its values were scheduled last and have not been
    used. *)
Lemma appStep_scheduled st e (done : list (Buffer * Z)) :
  (forall h c, activeTimers st !! h = Some c -> timeout st = Some h) ->
  (processCalls st `sublist_of` done /\
   forall h c, activeTimers st !! h = Some c ->
     exists earlier, done = earlier ++ [c] /\
                     processCalls st `sublist_of` earlier) ->
  processCalls (appStep newHandle st e) `sublist_of` done ++ scheduled [e] /\
  forall h c, activeTimers (appStep newHandle st e) !! h = Some c ->
    exists earlier, done ++ scheduled [e] = earlier ++ [c] /\
                    processCalls (appStep newHandle st e)
                      `sublist_of` earlier.
Proof.
  intros Hinv [Hsub Hact]. rewrite scheduled_one.
  destruct e as [[buffer|] m|h']; cbn [appStep].
  - unfold effect, setTimeout. rewrite clearTimeout_all by done.
    cbn [activeTimers processCalls].
    split; [by apply sublist_inserts_r|].
    intros h c [[_ <-]|[_ Hc]]%lookup_insert_Some.
    + by exists done.
    + by rewrite lookup_empty in Hc.
  - cbn [effect]. by rewrite (right_id_L [] (++)).
  - rewrite (right_id_L [] (++)).
    unfold fireTimer. destruct (activeTimers st !! h') as [c'|] eqn:Hc'.
    + cbn [activeTimers processCalls].
      destruct (Hact h' c' Hc') as (earlier & -> & Hearlier).
      split; [by apply sublist_app|].
      intros h c [Hne Hc]%lookup_delete_Some. exfalso.
      apply Hinv in Hc. apply Hinv in Hc'. congruence.
    + done.
Qed.

Lemma appRun_scheduled events st (done : list (Buffer * Z)) :
  (forall h c, activeTimers st !! h = Some c -> timeout st = Some h) ->
  (processCalls st `sublist_of` done /\
   forall h c, activeTimers st !! h = Some c ->
     exists earlier, done = earlier ++ [c] /\
                     processCalls st `sublist_of` earlier) ->
  processCalls (appRun newHandle events st)
    `sublist_of` done ++ scheduled events.
Proof.
  revert st done. induction events as [|e events IH]; intros st done Hinv H.
  - change (scheduled []) with (@nil (Buffer * Z)).
    rewrite (right_id_L [] (++)). apply H.
  - cbn [appRun fold_left].
    replace (done ++ scheduled (e :: events))
      with ((done ++ scheduled [e]) ++ scheduled events).
    + apply IH; [by apply appStep_named|by apply appStep_scheduled].
    + rewrite <- (assoc_L (++)). f_equal. unfold scheduled.
      by rewrite <- omap_app.
Qed.

(** X12: [processImage] is only called with values the effect scheduled:
    the calls are, in order, some of the pairs of buffer and threshold for
    which the effect ran, each used at most once; so there are never more
    calls than changes of the inputs. *)
Theorem calls_were_scheduled events :
  processCalls (appRun newHandle events appStart)
    `sublist_of` scheduled events /\
  (length (processCalls (appRun newHandle events appStart)) <=
   length (scheduled events))%nat.
Proof.
  assert (processCalls (appRun newHandle events appStart)
            `sublist_of` scheduled events) as Hsub.
  { apply (appRun_scheduled events appStart []); [apply appStart_named|].
    split; [done|]. intros h c Hc. cbn [appStart activeTimers] in Hc.
    by rewrite lookup_empty in Hc. }
  split; [done|]. by apply sublist_length.
Qed.
End EffectFacts.

(** * Coarser quantization *)

(** Keys that merge whenever other keys merge are fewer. *)
Lemma size_keys_refine {A : Type} (f g : A -> Z) (l : list A) :
  (forall a b, a ∈ l -> b ∈ l -> g a = g b -> f a = f b) ->
  (size (list_to_set (map f l) : gset Z) <=
   size (list_to_set (map g l) : gset Z))%nat.
Proof.
  induction l as [|a l IH]; intros H; [done|].
  cbn [map list_to_set].
  assert (size (list_to_set (map f l) : gset Z) ≤
          size (list_to_set (map g l) : gset Z))%nat as IH'.
  { apply IH. intros x y Hx Hy. apply H; by right. }
  destruct (decide (g a ∈ (list_to_set (map g l) : gset Z))) as [Hin|Hout].
  - apply elem_of_list_to_set, list_elem_of_fmap in Hin as (b & Hgb & Hb).
    assert (f a = f b) as Hfab by (apply H; [by left|by right|done]).
    assert (f a ∈ (list_to_set (map f l) : gset Z)) as Hfin.
    { apply elem_of_list_to_set, list_elem_of_fmap. by exists b. }
    assert (g a ∈ (list_to_set (map g l) : gset Z)) as Hgin.
    { apply elem_of_list_to_set, list_elem_of_fmap. by exists b. }
    rewrite (subseteq_union_1_L {[f a]}), (subseteq_union_1_L {[g a]})
      by by apply singleton_subseteq_l.
    done.
  - rewrite (size_union {[g a]}), size_singleton
      by by apply disjoint_singleton_l.
    pose proof (size_add_le (f a) (list_to_set (map f l))). lia.
Qed.

Lemma channelValue_coarser data quantizationFactor k i :
  0 < quantizationFactor -> 0 < k ->
  channelValue data (quantizationFactor * k) i =
  channelValue data quantizationFactor i / k.
Proof.
  intros Hq Hk. unfold channelValue, readByte.
  destruct (data !! i) as [b|]; cbn [quantize]; [|done].
  rewrite !decide_False by lia. simpl default.
  by rewrite Z.div_div by lia.
Qed.

Lemma quantizedTriple_channels data quantizationFactor pixelStart :
  quantizedTriple data quantizationFactor pixelStart =
  (channelValue data quantizationFactor pixelStart,
   channelValue data quantizationFactor (pixelStart + 1),
   channelValue data quantizationFactor (pixelStart + 2)).
Proof. reflexivity. Qed.

Lemma quantizedTriple_coarser data quantizationFactor k pixelStart :
  0 < quantizationFactor -> 0 < k ->
  quantizedTriple data (quantizationFactor * k) pixelStart =
  (let '(r, g, b) := quantizedTriple data quantizationFactor pixelStart in
   (r / k, g / k, b / k)).
Proof.
  intros Hq Hk. rewrite !quantizedTriple_channels.
  by rewrite !channelValue_coarser by done.
Qed.

Lemma quantizedTriple_nibbles data quantizationFactor pixelStart :
  Forall (fun b => 0 <= b < 256) data ->
  16 <= quantizationFactor ->
  fitsNibbles (quantizedTriple data quantizationFactor pixelStart).
Proof.
  intros Hbytes Hq. rewrite quantizedTriple_channels.
  unfold fitsNibbles. cbn [fst snd].
  split_and!; apply channelValue_byte; (done || lia).
Qed.

Lemma contentRows_length_mono data width height m1 q1 m2 q2 :
  (forall y, rowIsContent data width m2 q2 y = true ->
             rowIsContent data width m1 q1 y = true) ->
  (length (contentRows data width height m2 q2) <=
   length (contentRows data width height m1 q1))%nat.
Proof.
  intros Himp. unfold contentRows. generalize (seq 0 height).
  intros l. induction l as [|y l IH]; [done|].
  rewrite !filter_cons.
  destruct (rowIsContent data width m2 q2 y) eqn:H2.
  - rewrite (Himp y H2). rewrite !decide_True by done. simpl. lia.
  - rewrite (decide_False (P := false = true)) by done.
    case_decide; simpl; lia.
Qed.

(** X13: multiplying a quantization factor of at least 16 by a positive
    integer merges keys and never splits them: no row gets more distinct
    keys, no blank row becomes content, and the output gets no taller. *)
Theorem coarser_factor_keeps_less data width height maxDifferentPixels
    quantizationFactor k :
  Forall (fun b => 0 <= b < 256) data ->
  16 <= quantizationFactor -> 1 <= k -> (0 < width)%nat ->
  (forall y,
     (distinctKeyCount data width (quantizationFactor * k) y <=
      distinctKeyCount data width quantizationFactor y)%nat) /\
  exists h1 hk,
    newHeight (compactRows data width height maxDifferentPixels
                 quantizationFactor) = Some h1 /\
    newHeight (compactRows data width height maxDifferentPixels
                 (quantizationFactor * k)) = Some hk /\
    (hk <= h1)%nat.
Proof.
  intros Hbytes Hq Hk Hw.
  assert (forall y,
            (distinctKeyCount data width (quantizationFactor * k) y <=
             distinctKeyCount data width quantizationFactor y)%nat) as Hcount.
  { intros y. unfold distinctKeyCount, rowKeyList.
    apply size_keys_refine. intros x x' _ _.
    rewrite !pixelKey_keyOfTriple. intros Hkey.
    apply keyOfTriple_inj in Hkey;
      [|by apply quantizedTriple_nibbles..].
    rewrite !quantizedTriple_coarser by lia. by rewrite Hkey. }
  split; [done|].
  eexists _, _. split_and!; [by apply newHeight_contentRows..|].
  apply contentRows_length_mono. intros y.
  rewrite !rowIsContent_count. specialize (Hcount y). lia.
Qed.

Lemma coarser_factor_keeps_less_witness :
  exists h1 hk,
    newHeight (compactRows scenario 4 3 1 16) = Some h1 /\
    newHeight (compactRows scenario 4 3 1 (16 * 16)) = Some hk /\
    (hk <= h1)%nat.
Proof.
  apply (coarser_factor_keeps_less scenario 4 3 1 16 16).
  - apply (scenario_wellFormed 0). lia.
  - lia.
  - lia.
  - lia.
Defined.

(** * A run of the effect *)

Lemma latest_values_win_witness :
  exists h,
    timeout (appStep smallHandle (appRun smallHandle sliderBurst appStart)
               (InputsChanged (Some 2%nat) 9)) = Some h /\
    activeTimers (appStep smallHandle
                    (appRun smallHandle sliderBurst appStart)
                    (InputsChanged (Some 2%nat) 9)) = {[h := (2%nat, 9)]} /\
    (h ∈ [1%nat] ->
     processCalls
       (appRun smallHandle (map TimerFires [1%nat])
          (appStep smallHandle (appRun smallHandle sliderBurst appStart)
             (InputsChanged (Some 2%nat) 9))) =
     processCalls (appRun smallHandle sliderBurst appStart) ++ [(2%nat, 9)]) /\
    (h ∉ [1%nat] ->
     processCalls
       (appRun smallHandle (map TimerFires [1%nat])
          (appStep smallHandle (appRun smallHandle sliderBurst appStart)
             (InputsChanged (Some 2%nat) 9))) =
     processCalls (appRun smallHandle sliderBurst appStart)).
Proof. apply (latest_values_win smallHandle sliderBurst 2%nat 9 [1%nat]). Defined.

Example sliderBurst_calls :
  processCalls (appRun smallHandle sliderBurst appStart) = [(1%nat, 7)].
Proof. by vm_compute. Qed.

Example sliderBurst_then_new_image :
  processCalls
    (appRun smallHandle
       (sliderBurst ++ [InputsChanged (Some 2%nat) 9; TimerFires 1])
       appStart) = [(1%nat, 7); (2%nat, 9)].
Proof. by vm_compute. Qed.
